(** * mlpack hyper-parameter tuning: [CVFunction]

    A shallow embedding of [src/mlpack/core/hpt/cv_function_impl.hpp]:
    the adapter that turns the optimizer's parameter matrix into a call
    of a cross-validation object, interleaving the bound arguments with
    the matrix entries, and that keeps the best model seen so far.

    Scores are IEEE binary64 values, modelled by Rocq's primitive
    floats, so that [>] and [==] behave on NaN, infinities and signed
    zeros as they do in the C++ code. *)

From Stdlib Require Import Floats ZArith Lia List Bool PeanoNat Sorted.
From Equations Require Import Equations.
Import ListNotations.

(* ================================================================== *)
(** ** Doubles *)

Module Double.

(** [std::numeric_limits<double>::max()]. *)
Definition max : float := 0x1.fffffffffffffp+1023%float.

(** The C++ operators used by the tracker. *)
Definition gt (x y : float) : bool := PrimFloat.ltb y x.
Definition eq (x y : float) : bool := PrimFloat.eqb x y.
Definition le (x y : float) : bool := PrimFloat.leb x y.

(** [std::isnan]. *)
Definition isnan (x : float) : bool := PrimFloat.is_nan x.

End Double.

(* ================================================================== *)
(** ** The parameter matrix ([arma::mat])

    Armadillo is an external library; its dense matrix is modelled by
    its documented behaviour.  The elements are stored column by
    column; the element access [m(row, col)] checks its indices and
    throws [std::logic_error] when they are out of bounds. *)

Record mat : Type := Mat {
  n_rows : nat;
  n_cols : nat;
  mem    : list float
}.

Definition mat_at (m : mat) (row col : nat) : option float :=
  if (row <? n_rows m) && (col <? n_cols m)
  then nth_error (mem m) (row + col * n_rows m)
  else None.

(** A parameter vector, as the optimizer hands it over: one column. *)
Definition colvec (v : list float) : mat :=
  {| n_rows := length v; n_cols := 1; mem := v |}.

(* ================================================================== *)
(** ** Data model *)

Section Model.

(** Payload of the bound arguments.  The C++ pack is heterogeneous;
    here the payloads live in one type. *)
Variable BoundVal : Type.
(** The learning algorithm (the trained model). *)
Variable MLAlgorithm : Type.
(** The state of the cross-validation object. *)
Variable CVType : Type.
(** What the cross-validation object may throw. *)
Variable Exn : Type.

(** [BoundArg<T, I>]: [index] is the static member [I], [value] the
    stored payload. *)
Record BoundArg : Type := mkBoundArg {
  index : nat;
  value : BoundVal
}.

(** One entry of the argument pack handed to [cv.Evaluate]. *)
Inductive Arg : Type :=
| ABound (v : BoundVal)
| AParam (x : float).

(** The class: [cv] is a reference and lives in the [World]. *)
Record CVFunction : Type := mkCVFunction {
  boundArgs     : list BoundArg;
  bestObjective : float;
  bestModel     : MLAlgorithm
}.

(** The store an evaluation runs in: the adapter, the cross-validation
    object it refers to, and the caller's matrix that the reference
    [parameters] denotes. *)
Record World : Type := mkWorld {
  self       : CVFunction;
  cv         : CVType;
  parameters : mat
}.

Inductive Failure : Type :=
| CvFailure (e : Exn)      (* thrown by [cv.Evaluate] *)
| IndexOutOfBounds         (* thrown by [parameters(row, col)] *)
| NoOverload.              (* no [Evaluate<B, P>] is enabled *)

(** Observations made during a call, in program order. *)
Inductive Event : Type :=
| EvParam (row col : nat)
    (* [parameters(row, col)] was evaluated *)
| EvCV (args : list Arg) (r : Exn + float) (m : MLAlgorithm).
    (* [cv.Evaluate(args...)] ended with [r]; [m] is what
       [cv.Model()] designates at that moment *)

(* ---------------------------------------------------------------- *)
(** *** State, failure and log monad *)

Definition Outcome (A : Type) : Type := (Failure + A) * World * list Event.
Definition M (A : Type) : Type := World -> Outcome A.

Definition ret {A} (a : A) : M A := fun w => (inr a, w, []).

Definition bind {A B} (m : M A) (f : A -> M B) : M B := fun w =>
  match m w with
  | (inl e, w1, ev1) => (inl e, w1, ev1)
  | (inr a, w1, ev1) =>
      let '(r, w2, ev2) := f a w1 in (r, w2, ev1 ++ ev2)
  end.

Definition throw {A} (e : Failure) : M A := fun w => (inl e, w, []).
Definition emit (ev : Event) : M unit := fun w => (inr tt, w, [ev]).
Definition gets {A} (f : World -> A) : M A := fun w => (inr (f w), w, []).
Definition modify (f : World -> World) : M unit := fun w => (inr tt, f w, []).

Definition result {A} (o : Outcome A) : Failure + A := fst (fst o).
Definition final {A} (o : Outcome A) : World := snd (fst o).
Definition events {A} (o : Outcome A) : list Event := snd o.

(** The outcome [o] of a computation that runs after [evs] was logged. *)
Definition after {A} (evs : list Event) (o : Outcome A) : Outcome A :=
  (result o, final o, evs ++ events o).

Declare Scope cv_scope.
Notation "x <- c1 ;; c2" := (bind c1 (fun x => c2))
  (at level 61, c1 at next level, right associativity) : cv_scope.
Notation "c1 ;; c2" := (bind c1 (fun _ => c2))
  (at level 61, right associativity) : cv_scope.

(* ================================================================ *)
(** ** The code *)

(** The template parameter [TotalArgs]. *)
Variable TotalArgs : nat.

(** The cross-validation object, an external collaborator:
    [cv.Evaluate(args...)] returns a score or throws and may change
    the object; [cv.Model()] designates the model of the last
    evaluation; [cv_moved_from] is the object once that model has
    been moved out of it. *)
Variable cv_Evaluate : list Arg -> CVType -> (Exn + float) * CVType.
Variable cv_Model : CVType -> MLAlgorithm.
Variable cv_moved_from : CVType -> CVType.

(** The default-constructed [MLAlgorithm]. *)
Variable MLAlgorithm_default : MLAlgorithm.

Local Open Scope cv_scope.

(** [UseBoundArg<BoundArgIndex, ParamIndex, InRange>::value], with
    [bas] for [BoundArgsTupleType].  The source gives the two
    specialisations, for [InRange] true and false.

    Modelled from the spec: the default of the third template
    parameter is in the class declaration, which is not among the
    sources; the first specialisation applies while a bound argument
    is left unconsumed ([BoundArgIndex] is a position of the tuple). *)
Definition UseBoundArg (bas : list BoundArg)
    (BoundArgIndex ParamIndex : nat) : bool :=
  match nth_error bas BoundArgIndex with
  | Some BoundArgType => index BoundArgType =? BoundArgIndex + ParamIndex
  | None => false
  end.

(** The constructor. *)
Definition CVFunction_ctor (args : list BoundArg) : CVFunction :=
  {| boundArgs := args;
     bestObjective := Double.max;
     bestModel := MLAlgorithm_default |}.

(** Primitive actions. *)

(** [parameters(row, col)] *)
Definition parameters_at (row col : nat) : M float :=
  emit (EvParam row col) ;;
  p <- gets (fun w => parameters w) ;;
  match mat_at p row col with
  | Some x => ret x
  | None => throw IndexOutOfBounds
  end.

(** [cv.Evaluate(args...)] *)
Definition cv_call (args : list Arg) : M float := fun w =>
  let '(r, c') := cv_Evaluate args (cv w) in
  let w' := {| self := self w; cv := c'; parameters := parameters w |} in
  (match r with inl e => inl (CvFailure e) | inr s => inr s end,
   w', [EvCV args r (cv_Model c')]).

(** [std::move(cv.Model())] *)
Definition move_cv_Model : M MLAlgorithm := fun w =>
  (inr (cv_Model (cv w)),
   {| self := self w; cv := cv_moved_from (cv w);
      parameters := parameters w |},
   []).

Definition set_bestObjective (x : float) : M unit :=
  modify (fun w =>
    {| self := {| boundArgs := boundArgs (self w);
                  bestObjective := x;
                  bestModel := bestModel (self w) |};
       cv := cv w; parameters := parameters w |}).

Definition set_bestModel (m : MLAlgorithm) : M unit :=
  modify (fun w =>
    {| self := {| boundArgs := boundArgs (self w);
                  bestObjective := bestObjective (self w);
                  bestModel := m |};
       cv := cv w; parameters := parameters w |}).

(** [Evaluate<BoundArgIndex, ParamIndex>] when
    [BoundArgIndex + ParamIndex == TotalArgs]: run the
    cross-validation and keep the best model. *)
Definition Evaluate_base (args : list Arg) : M float :=
  objective <- cv_call args ;;
  best <- gets (fun w => bestObjective (self w)) ;;
  (if Double.gt best objective || Double.eq best Double.max
   then
     set_bestObjective objective ;;
     m <- move_cv_Model ;;
     set_bestModel m
   else ret tt) ;;
  ret objective.

(** [Evaluate<BoundArgIndex, ParamIndex>(parameters, args...)].

    Modelled from the spec: the [enable_if] conditions that choose
    between the overloads are in the class declaration, which is not
    among the sources; the walk goes on while slots remain
    ([BoundArgIndex + ParamIndex < TotalArgs]) and runs the
    cross-validation once all of them are filled
    ([BoundArgIndex + ParamIndex == TotalArgs]).  [PutNextArg] is
    chosen by [UseBoundArg]; its two overloads are the two branches of
    the conditional. *)
Equations? Evaluate_tpl (BoundArgIndex ParamIndex : nat) (args : list Arg)
    : M float by wf (TotalArgs - (BoundArgIndex + ParamIndex)) lt :=
  Evaluate_tpl BoundArgIndex ParamIndex args
    with lt_eq_lt_dec (BoundArgIndex + ParamIndex) TotalArgs := {
    | inleft (left _) =>
        (* PutNextArg<BoundArgIndex, ParamIndex>(parameters, args...) *)
        bas <- gets (fun w => boundArgs (self w)) ;;
        if UseBoundArg bas BoundArgIndex ParamIndex
        then
          match nth_error bas BoundArgIndex with
          | Some b =>
              Evaluate_tpl (BoundArgIndex + 1) ParamIndex
                           (args ++ [ABound (value b)])
          | None => throw NoOverload
          end
        else
          x <- parameters_at ParamIndex 0 ;;
          Evaluate_tpl BoundArgIndex (ParamIndex + 1)
                       (args ++ [AParam x])
    | inleft (right _) => Evaluate_base args
    | inright _ => throw NoOverload }.
Proof. all: lia. Qed.

(** [PutNextArg<BoundArgIndex, ParamIndex>(parameters, args...)],
    both overloads, on its own; [Evaluate_tpl] below the last slot is
    this function (lemma [Evaluate_tpl_lt]). *)
Definition PutNextArg (BoundArgIndex ParamIndex : nat) (args : list Arg)
    : M float :=
  bas <- gets (fun w => boundArgs (self w)) ;;
  if UseBoundArg bas BoundArgIndex ParamIndex
  then
    match nth_error bas BoundArgIndex with
    | Some b =>
        Evaluate_tpl (BoundArgIndex + 1) ParamIndex
                     (args ++ [ABound (value b)])
    | None => throw NoOverload
    end
  else
    x <- parameters_at ParamIndex 0 ;;
    Evaluate_tpl BoundArgIndex (ParamIndex + 1) (args ++ [AParam x]).

(** [double Evaluate(const arma::mat& parameters)] *)
Definition Evaluate : M float := Evaluate_tpl 0 0 [].

(** The optimizer's side of the interface: it writes its next
    parameter matrix and calls [Evaluate]. *)
Definition optimizer_step (p : mat) : M float := fun w =>
  Evaluate {| self := self w; cv := cv w; parameters := p |}.

(** A tuning run: one step per matrix, whatever each step's result;
    the log of the whole run is returned with the final store. *)
Fixpoint tuning_run (ps : list mat) (w : World) : World * list Event :=
  match ps with
  | [] => (w, [])
  | p :: ps' =>
      let o := optimizer_step p w in
      let '(w', evs) := tuning_run ps' (final o) in
      (w', events o ++ evs)
  end.

(** The completed cross-validations of a log: score and model. *)
Fixpoint completed (evs : list Event) : list (float * MLAlgorithm) :=
  match evs with
  | [] => []
  | EvCV _ (inr s) m :: evs' => (s, m) :: completed evs'
  | _ :: evs' => completed evs'
  end.

(** The argument packs handed to [cv.Evaluate] in a log. *)
Fixpoint cv_calls (evs : list Event) : list (list Arg) :=
  match evs with
  | [] => []
  | EvCV args _ _ :: evs' => args :: cv_calls evs'
  | _ :: evs' => cv_calls evs'
  end.

(** The matrix accesses of a log. *)
Fixpoint param_reads (evs : list Event) : list (nat * nat) :=
  match evs with
  | [] => []
  | EvParam r c :: evs' => (r, c) :: param_reads evs'
  | _ :: evs' => param_reads evs'
  end.

End Model.

Arguments ABound {BoundVal} v.
Arguments AParam {BoundVal} x.
Arguments mkBoundArg {BoundVal} index value.
Arguments index {BoundVal} b.
Arguments value {BoundVal} b.
Arguments boundArgs {BoundVal MLAlgorithm} c.
Arguments bestObjective {BoundVal MLAlgorithm} c.
Arguments bestModel {BoundVal MLAlgorithm} c.
Arguments self {BoundVal MLAlgorithm CVType} w.
Arguments cv {BoundVal MLAlgorithm CVType} w.
Arguments parameters {BoundVal MLAlgorithm CVType} w.
Arguments CvFailure {Exn} e.
Arguments IndexOutOfBounds {Exn}.
Arguments NoOverload {Exn}.
Arguments EvParam {BoundVal MLAlgorithm Exn} row col.
Arguments EvCV {BoundVal MLAlgorithm Exn} args r m.
Arguments result {BoundVal MLAlgorithm CVType Exn A} o.
Arguments final {BoundVal MLAlgorithm CVType Exn A} o.
Arguments events {BoundVal MLAlgorithm CVType Exn A} o.
Arguments after {BoundVal MLAlgorithm CVType Exn A} evs o.
Arguments UseBoundArg {BoundVal} bas BoundArgIndex ParamIndex.
Arguments CVFunction_ctor {BoundVal MLAlgorithm} MLAlgorithm_default args.
Arguments Evaluate_base {BoundVal MLAlgorithm CVType Exn}
  cv_Evaluate cv_Model cv_moved_from args.
Arguments Evaluate_tpl {BoundVal MLAlgorithm CVType Exn}
  TotalArgs cv_Evaluate cv_Model cv_moved_from BoundArgIndex ParamIndex args.
Arguments PutNextArg {BoundVal MLAlgorithm CVType Exn}
  TotalArgs cv_Evaluate cv_Model cv_moved_from BoundArgIndex ParamIndex args.
Arguments Evaluate {BoundVal MLAlgorithm CVType Exn}
  TotalArgs cv_Evaluate cv_Model cv_moved_from.
Arguments optimizer_step {BoundVal MLAlgorithm CVType Exn}
  TotalArgs cv_Evaluate cv_Model cv_moved_from p.
Arguments tuning_run {BoundVal MLAlgorithm CVType Exn}
  TotalArgs cv_Evaluate cv_Model cv_moved_from ps w.
Arguments completed {BoundVal MLAlgorithm Exn} evs.
Arguments cv_calls {BoundVal MLAlgorithm Exn} evs.
Arguments param_reads {BoundVal MLAlgorithm Exn} evs.

(* ================================================================== *)
(** ** Vocabulary of the specification *)

Section Vocabulary.

Context {BoundVal : Type}.

(** The bound-argument indices are strictly increasing and lie in
    [[0, TotalArgs)]. *)
Definition valid_bound_indices (TotalArgs : nat)
    (bas : list (BoundArg BoundVal)) : Prop :=
  StronglySorted lt (map index bas) /\
  Forall (fun i => i < TotalArgs) (map index bas).

(** Slot [i] is filled by a bound argument. *)
Definition is_bound (bas : list (BoundArg BoundVal)) (i : nat) : bool :=
  existsb (fun b => index b =? i) bas.

(** The rank of slot [i] among the slots that are not bound. *)
Definition rank (bas : list (BoundArg BoundVal)) (i : nat) : nat :=
  length (filter (fun j => negb (is_bound bas j)) (seq 0 i)).

(** The entries of an argument pack that come from the matrix. *)
Fixpoint params_of (args : list (Arg BoundVal)) : list float :=
  match args with
  | [] => []
  | AParam x :: args' => x :: params_of args'
  | ABound _ :: args' => params_of args'
  end.

(** What slot [i] of the argument pack must hold, [o] being the entry
    found there: the bound value whose index is [i], or else the entry
    of column 0 of the matrix [p] at the rank of [i]. *)
Definition slot_ok (bas : list (BoundArg BoundVal)) (p : mat) (i : nat)
    (o : option (Arg BoundVal)) : Prop :=
  (forall b, In b bas -> index b = i -> o = Some (ABound (value b))) /\
  (is_bound bas i = false ->
   exists x, mat_at p (rank bas i) 0 = Some x /\ o = Some (AParam x)).

(** [args] interleaves the bound values of [bas] with the entries of
    the parameter vector [vec]: it has [TotalArgs] entries, and entry
    [i] is the bound value whose index is [i] when there is one, and
    otherwise the entry of [vec] at the rank of [i] among the slots that
    are not bound. *)
Definition interleaved (TotalArgs : nat) (bas : list (BoundArg BoundVal))
    (vec : list float) (args : list (Arg BoundVal)) : Prop :=
  length args = TotalArgs /\
  forall i, i < TotalArgs ->
    (forall b, In b bas -> index b = i ->
       nth_error args i = Some (ABound (value b))) /\
    (is_bound bas i = false ->
       exists x, nth_error vec (rank bas i) = Some x /\
                 nth_error args i = Some (AParam x)).

(** [(s, m)] is the earliest minimum of the history [h]: every earlier
    score is strictly greater than [s] and every later score is at
    least [s]. *)
Definition earliest_min {Model : Type} (h : list (float * Model))
    (s : float) (m : Model) : Prop :=
  exists h1 h2,
    h = h1 ++ (s, m) :: h2 /\
    Forall (fun x => Double.gt (fst x) s = true) h1 /\
    Forall (fun x => Double.le s (fst x) = true) h2.

(** The state of the tracker after the history [h] of completed
    evaluations: the sentinel before the first one, the earliest
    minimum afterwards. *)
Definition tracker_inv {Model : Type} (h : list (float * Model))
    (c : CVFunction BoundVal Model) : Prop :=
  match h with
  | [] => bestObjective c = Double.max
  | _ :: _ => earliest_min h (bestObjective c) (bestModel c)
  end.

(** No score of the history is NaN or the largest finite double. *)
Definition ordinary_scores {Model : Type} (h : list (float * Model))
    : Prop :=
  Forall (fun x => Double.isnan (fst x) = false /\
                   Double.eq (fst x) Double.max = false) h.

(** Two outcomes that differ at most in the caller's matrix. *)
Definition same_outcome {MLAlgorithm CVType Exn A : Type}
    (o1 o2 : Outcome BoundVal MLAlgorithm CVType Exn A) : Prop :=
  result o1 = result o2 /\ events o1 = events o2 /\
  self (final o1) = self (final o2) /\ cv (final o1) = cv (final o2).

End Vocabulary.

Section PackSources.

Context {BoundVal : Type}.

(** The entries of an argument pack that come from the bound
    arguments. *)
Fixpoint bounds_of (args : list (Arg BoundVal)) : list BoundVal :=
  match args with
  | [] => []
  | ABound v :: args' => v :: bounds_of args'
  | AParam _ :: args' => bounds_of args'
  end.

End PackSources.

(* ================================================================== *)
(** ** Three sentences of the specification, as it states them *)

Section Stated.

Context {BoundVal MLAlgorithm CVType Exn : Type}.
Variable TotalArgs : nat.
Variable cv_Evaluate :
  list (Arg BoundVal) -> CVType -> (Exn + float) * CVType.
Variable cv_Model : CVType -> MLAlgorithm.
Variable cv_moved_from : CVType -> CVType.

(** After a tuning run from the store [w0] with at least one completed
    evaluation, the adapter stores the earliest minimum of the completed
    evaluations. *)
Definition tracks_earliest_min
    (w0 : World BoundVal MLAlgorithm CVType) (ps : list mat) : Prop :=
  let run := tuning_run (Exn := Exn) TotalArgs cv_Evaluate cv_Model
               cv_moved_from ps w0 in
  completed (snd run) <> [] ->
  earliest_min (completed (snd run))
    (bestObjective (self (fst run))) (bestModel (self (fst run))).

(** A call whose score equals the stored best score changes neither the
    stored score nor the stored model. *)
Definition ties_keep_best
    (w : World BoundVal MLAlgorithm CVType) (s : float) : Prop :=
  let o := Evaluate (Exn := Exn) TotalArgs cv_Evaluate cv_Model
             cv_moved_from w in
  result o = inr s ->
  Double.eq (bestObjective (self w)) s = true ->
  bestObjective (self (final o)) = bestObjective (self w) /\
  bestModel (self (final o)) = bestModel (self w).

(** Bound arguments with invalid indices are caught before the first
    evaluation: the cross-validation routine is never called with
    them. *)
Definition invalid_is_caught
    (w : World BoundVal MLAlgorithm CVType) : Prop :=
  ~ valid_bound_indices TotalArgs (boundArgs (self w)) ->
  cv_calls (events (Evaluate (Exn := Exn) TotalArgs cv_Evaluate cv_Model
                      cv_moved_from w)) = [].

End Stated.

(* ================================================================== *)
(** ** A small cross-validation object to run the code on

    It counts its evaluations; the score of an evaluation is the first
    matrix entry among its arguments, and it throws when there is none;
    its model is the number of the evaluation that trained it. *)

Module Toy.

Definition BoundVal := nat.
Definition MLAlgorithm := nat.
Definition CVType := nat.
Definition Exn := unit.

Fixpoint first_param (args : list (Arg BoundVal)) : option float :=
  match args with
  | [] => None
  | AParam x :: _ => Some x
  | ABound _ :: args' => first_param args'
  end.

Definition cv_Evaluate (args : list (Arg BoundVal)) (c : CVType)
    : (Exn + float) * CVType :=
  (match first_param args with Some x => inr x | None => inl tt end, S c).

Definition cv_Model (c : CVType) : MLAlgorithm := c.
Definition cv_moved_from (c : CVType) : CVType := c.

(** A freshly constructed adapter next to a fresh cross-validation
    object. *)
Definition fresh (bas : list (BoundArg BoundVal)) (p : mat)
    : World BoundVal MLAlgorithm CVType :=
  {| self := CVFunction_ctor 0 bas; cv := 0; parameters := p |}.

Definition Evaluate (TotalArgs : nat) :=
  Evaluate (Exn := Exn) TotalArgs cv_Evaluate cv_Model cv_moved_from.

Definition tuning_run (TotalArgs : nat) :=
  tuning_run (Exn := Exn) TotalArgs cv_Evaluate cv_Model cv_moved_from.

End Toy.

(* ================================================================== *)
(** ** Facts about the comparisons of doubles *)

Module DoubleFacts.

Import Double.

Local Ltac cmp_cases :=
  repeat match goal with
  | |- context [Z.compare ?a ?b] => destruct (Z.compare_spec a b)
  | H : context [Z.compare ?a ?b] |- _ => destruct (Z.compare_spec a b)
  | |- context [Pos.compare_cont Eq ?a ?b] =>
      change (Pos.compare_cont Eq a b) with (Pos.compare a b);
      destruct (Pos.compare_spec a b)
  | H : context [Pos.compare_cont Eq ?a ?b] |- _ =>
      change (Pos.compare_cont Eq a b) with (Pos.compare a b) in H;
      destruct (Pos.compare_spec a b)
  end.

Local Ltac sf_cases a b c :=
  destruct a as [[|]|[|]| |[|] ? ?], b as [[|]|[|]| |[|] ? ?],
           c as [[|]|[|]| |[|] ? ?];
  simpl; intros; try discriminate; try reflexivity;
  cmp_cases; simpl in *; subst;
  try discriminate; try reflexivity; try lia.

Lemma SFcompare_lt_trans a b c :
  SFcompare a b = Some Lt -> SFcompare b c = Some Lt ->
  SFcompare a c = Some Lt.
Proof. sf_cases a b c. Qed.

Lemma SFcompare_lt_eq_trans a b c :
  SFcompare a b = Some Lt -> SFcompare b c = Some Eq ->
  SFcompare a c = Some Lt.
Proof. sf_cases a b c. Qed.

Lemma SFcompare_total a b :
  SFcompare a a <> None -> SFcompare b b <> None ->
  SFcompare a b = Some Lt \/ SFcompare b a = Some Lt \/
  SFcompare a b = Some Eq.
Proof.
  destruct a as [[|]|[|]| |[|] ? ?], b as [[|]|[|]| |[|] ? ?];
    simpl; intros; try congruence; auto;
    cmp_cases; simpl in *; subst; auto; try lia.
Qed.

Local Ltac to_spec :=
  unfold gt, le, eq, isnan, PrimFloat.is_nan;
  rewrite ?FloatAxioms.ltb_spec, ?FloatAxioms.leb_spec,
    ?FloatAxioms.eqb_spec;
  unfold SFltb, SFleb, SFeqb.

Lemma gt_trans x s s' :
  gt x s = true -> gt s s' = true -> gt x s' = true.
Proof.
  to_spec.
  destruct (SFcompare (Prim2SF s) (Prim2SF x)) as [[]|] eqn:E1;
    try discriminate.
  destruct (SFcompare (Prim2SF s') (Prim2SF s)) as [[]|] eqn:E2;
    try discriminate.
  now rewrite (SFcompare_lt_trans _ _ _ E2 E1).
Qed.

Lemma gt_le_trans s s' x :
  gt s s' = true -> le s x = true -> gt x s' = true.
Proof.
  to_spec.
  destruct (SFcompare (Prim2SF s') (Prim2SF s)) as [[]|] eqn:E1;
    try discriminate.
  destruct (SFcompare (Prim2SF s) (Prim2SF x)) as [[]|] eqn:E2;
    try discriminate; intros _ _.
  - now rewrite (SFcompare_lt_eq_trans _ _ _ E1 E2).
  - now rewrite (SFcompare_lt_trans _ _ _ E1 E2).
Qed.

Lemma notnan_compare a :
  isnan a = false -> SFcompare (Prim2SF a) (Prim2SF a) <> None.
Proof.
  to_spec.
  destruct (SFcompare (Prim2SF a) (Prim2SF a)) as [[]|]; simpl;
    intros; discriminate.
Qed.

Lemma not_gt_le a b :
  isnan a = false -> isnan b = false -> gt a b = false -> le a b = true.
Proof.
  intros Ha Hb. apply notnan_compare in Ha, Hb. to_spec.
  destruct (SFcompare_total _ _ Ha Hb) as [E|[E|E]]; rewrite E;
    intros; try reflexivity; discriminate.
Qed.

Lemma SFcompare_eq_sym a b :
  SFcompare a b = Some Eq -> SFcompare b a = Some Eq.
Proof.
  destruct a as [[|]|[|]| |[|] ? ?], b as [[|]|[|]| |[|] ? ?];
    simpl; intros; try discriminate; try reflexivity;
    cmp_cases; simpl in *; subst; try discriminate; try reflexivity;
    try lia.
Qed.

Lemma eq_not_gt b s : eq b s = true -> gt b s = false.
Proof.
  to_spec.
  destruct (SFcompare (Prim2SF b) (Prim2SF s)) as [[]|] eqn:E;
    try discriminate.
  now rewrite (SFcompare_eq_sym _ _ E).
Qed.

Lemma max_eq_max : eq max max = true.
Proof. reflexivity. Qed.

Lemma SFcompare_asym a b :
  SFcompare a b = Some Lt -> SFcompare b a <> Some Lt.
Proof.
  destruct a as [[|]|[|]| |[|] ? ?], b as [[|]|[|]| |[|] ? ?];
    simpl; intros; try discriminate;
    cmp_cases; simpl in *; subst; try discriminate; try lia.
Qed.

Lemma gt_asym a b : gt a b = true -> gt b a = false.
Proof.
  to_spec.
  destruct (SFcompare (Prim2SF b) (Prim2SF a)) as [[]|] eqn:E;
    try discriminate.
  intros _. apply SFcompare_asym in E.
  destruct (SFcompare (Prim2SF a) (Prim2SF b)) as [[]|];
    congruence.
Qed.

Lemma SFcompare_refl_nan x : SFcompare x x <> Some Eq -> x = S754_nan.
Proof.
  destruct x as [[|]|[|]| |[|] m e]; simpl; intros H;
    try reflexivity; exfalso; apply H; try reflexivity;
    rewrite Z.compare_refl;
    change (Pos.compare_cont Eq m m) with (Pos.compare m m);
    rewrite Pos.compare_refl; reflexivity.
Qed.

Lemma gt_irrefl s : gt s s = false.
Proof.
  to_spec.
  destruct (SFcompare (Prim2SF s) (Prim2SF s)) as [[]|] eqn:E;
    try reflexivity.
  pose proof (SFcompare_asym _ _ E). congruence.
Qed.

Lemma isnan_Prim2SF b : isnan b = true -> Prim2SF b = S754_nan.
Proof.
  to_spec. intros H. apply SFcompare_refl_nan. intros E.
  rewrite E in H. discriminate.
Qed.

Lemma SFcompare_nan_r x : SFcompare x S754_nan = None.
Proof. destruct x; reflexivity. Qed.

(** A NaN is neither greater nor smaller than, nor equal to,
    anything. *)
Lemma nan_gt_l b s : isnan b = true -> gt b s = false.
Proof.
  intros H. apply isnan_Prim2SF in H. to_spec.
  now rewrite H, SFcompare_nan_r.
Qed.

Lemma nan_gt_r b s : isnan s = true -> gt b s = false.
Proof.
  intros H. apply isnan_Prim2SF in H. to_spec. now rewrite H.
Qed.

Lemma nan_eq_l b x : isnan b = true -> eq b x = false.
Proof.
  intros H. apply isnan_Prim2SF in H. to_spec. now rewrite H.
Qed.

End DoubleFacts.

(* ================================================================== *)
(** ** Valid bound-argument indices *)

Section ValidIndices.

Context {BoundVal : Type}.
Implicit Types bas : list (BoundArg BoundVal).

Lemma sorted_nth (l : list nat) :
  StronglySorted lt l ->
  forall i j a b, i < j ->
    nth_error l i = Some a -> nth_error l j = Some b -> a < b.
Proof.
  induction 1 as [|x l Hs IH Hx]; intros i j a b Hij Hi Hj.
  - destruct i; discriminate.
  - destruct j as [|j]; [lia|]. simpl in Hj.
    destruct i as [|i]; simpl in Hi.
    + injection Hi as <-. rewrite Forall_forall in Hx.
      apply Hx. eapply nth_error_In; eauto.
    + apply (IH i j a b); [lia | assumption | assumption].
Qed.

Lemma sorted_gap (l : list nat) :
  StronglySorted lt l ->
  forall d i a b,
    nth_error l i = Some a -> nth_error l (i + d) = Some b -> a + d <= b.
Proof.
  intros Hs. induction d as [|d IH]; intros i a b Hi Hj.
  - rewrite Nat.add_0_r in Hj. assert (a = b) by congruence. lia.
  - destruct (nth_error l (i + d)) as [c|] eqn:Hc.
    + specialize (IH i a c Hi Hc).
      assert (c < b)
        by (apply (sorted_nth l Hs (i + d) (i + S d) c b); auto; lia).
      lia.
    + apply nth_error_None in Hc.
      assert (nth_error l (i + S d) = None)
        by (apply nth_error_None; lia).
      congruence.
Qed.

Lemma nth_error_index bas j b :
  nth_error bas j = Some b -> nth_error (map index bas) j = Some (index b).
Proof. intros H. rewrite nth_error_map, H. reflexivity. Qed.

Lemma valid_nth_lt T bas i j a b :
  valid_bound_indices T bas -> i < j ->
  nth_error bas i = Some a -> nth_error bas j = Some b ->
  index a < index b.
Proof.
  intros [Hs _] Hij Hi Hj.
  apply (sorted_nth _ Hs i j); auto using nth_error_index.
Qed.

Lemma valid_nth_gap T bas i j a b :
  valid_bound_indices T bas -> i <= j ->
  nth_error bas i = Some a -> nth_error bas j = Some b ->
  index a + (j - i) <= index b.
Proof.
  intros [Hs _] Hij Hi Hj.
  apply (sorted_gap _ Hs (j - i) i).
  - now apply nth_error_index.
  - replace (i + (j - i)) with j by lia. now apply nth_error_index.
Qed.

Lemma valid_nth_range T bas j b :
  valid_bound_indices T bas -> nth_error bas j = Some b -> index b < T.
Proof.
  intros [_ Hr] Hj. rewrite Forall_forall in Hr. apply Hr.
  apply in_map. eapply nth_error_In; eauto.
Qed.

Lemma is_bound_true bas i b :
  In b bas -> index b = i -> is_bound bas i = true.
Proof.
  intros Hin Hi. unfold is_bound. apply existsb_exists.
  exists b. split; [assumption|]. now apply Nat.eqb_eq.
Qed.

Lemma is_bound_false bas i :
  (forall b, In b bas -> index b <> i) -> is_bound bas i = false.
Proof.
  intros H. destruct (is_bound bas i) eqn:E; [|reflexivity].
  unfold is_bound in E. apply existsb_exists in E as (b & Hin & Hb).
  apply Nat.eqb_eq in Hb. now apply H in Hin.
Qed.

Lemma is_bound_false_inv bas i b :
  is_bound bas i = false -> In b bas -> index b <> i.
Proof.
  intros E Hin Hi. rewrite (is_bound_true bas i b Hin Hi) in E. discriminate.
Qed.

Lemma rank_S bas i :
  rank bas (S i) = rank bas i + (if is_bound bas i then 0 else 1).
Proof.
  unfold rank. rewrite seq_S, filter_app, length_app. simpl.
  destruct (is_bound bas i); reflexivity.
Qed.

Lemma rank_le bas i j : i <= j -> rank bas i <= rank bas j.
Proof.
  induction 1 as [|j _ IH]; [lia|]. rewrite rank_S. lia.
Qed.

Lemma rank_lt bas i j :
  i < j -> is_bound bas i = false -> rank bas i < rank bas j.
Proof.
  intros Hij Hi. pose proof (rank_le bas (S i) j Hij) as H.
  rewrite rank_S, Hi in H. lia.
Qed.

(** With valid indices, the bound arguments not consumed yet fit in the
    slots that remain. *)
Lemma valid_room T bas B P :
  valid_bound_indices T bas ->
  B + P < T ->
  (forall j b, B <= j -> nth_error bas j = Some b -> B + P < index b) ->
  P + length bas < T.
Proof.
  intros Hv Hlt Hge.
  destruct (Nat.le_gt_cases (length bas) B) as [Hl|Hl]; [lia|].
  destruct (nth_error bas B) as [bB|] eqn:EB;
    [|apply nth_error_None in EB; lia].
  destruct (nth_error bas (length bas - 1)) as [bl|] eqn:El;
    [|apply nth_error_None in El; lia].
  pose proof (Hge B bB (Nat.le_refl _) EB).
  pose proof (valid_nth_gap T bas B (length bas - 1) bB bl Hv
                ltac:(lia) EB El).
  pose proof (valid_nth_range T bas _ bl Hv El).
  lia.
Qed.

End ValidIndices.

(* ================================================================== *)
(** ** How one call unfolds *)

Section Correctness.

Context {BoundVal MLAlgorithm CVType Exn : Type}.
Variable TotalArgs : nat.
Variable cv_Evaluate :
  list (Arg BoundVal) -> CVType -> (Exn + float) * CVType.
Variable cv_Model : CVType -> MLAlgorithm.
Variable cv_moved_from : CVType -> CVType.

Local Abbreviation World := (World BoundVal MLAlgorithm CVType).
Local Abbreviation Event := (Event BoundVal MLAlgorithm Exn).
Local Abbreviation Outcome := (Outcome BoundVal MLAlgorithm CVType Exn).
Local Abbreviation tpl :=
  (Evaluate_tpl TotalArgs cv_Evaluate cv_Model cv_moved_from).
Local Abbreviation base :=
  (Evaluate_base cv_Evaluate cv_Model cv_moved_from).
Local Abbreviation put :=
  (PutNextArg TotalArgs cv_Evaluate cv_Model cv_moved_from).

(** The log of the reads of rows [P], ..., [P + k - 1] of column 0. *)
Local Abbreviation reads P k :=
  (map (fun r => EvParam r 0 : Event) (seq P k)).

Lemma after_nil {A} (o : Outcome A) : after [] o = o.
Proof. destruct o as [[r w] evs]; reflexivity. Qed.

Lemma after_after {A} (e1 e2 : list Event) (o : Outcome A) :
  after e1 (after e2 o) = after (e1 ++ e2) o.
Proof. destruct o as [[r w] evs]; unfold after; simpl. now rewrite app_assoc. Qed.

(** The base case, spelled out. *)
Lemma Evaluate_base_eq args (w : World) :
  base args w =
  match cv_Evaluate args (cv w) with
  | (inl e, c') =>
      (inl (CvFailure e),
       {| self := self w; cv := c'; parameters := parameters w |},
       [EvCV args (inl e) (cv_Model c')])
  | (inr objective, c') =>
      if Double.gt (bestObjective (self w)) objective
         || Double.eq (bestObjective (self w)) Double.max
      then
        (inr objective,
         {| self := {| boundArgs := boundArgs (self w);
                       bestObjective := objective;
                       bestModel := cv_Model c' |};
            cv := cv_moved_from c';
            parameters := parameters w |},
         [EvCV args (inr objective) (cv_Model c')])
      else
        (inr objective,
         {| self := self w; cv := c'; parameters := parameters w |},
         [EvCV args (inr objective) (cv_Model c')])
  end.
Proof.
  unfold Evaluate_base, bind, cv_call.
  destruct (cv_Evaluate args (cv w)) as [[e|objective] c']; simpl;
    [reflexivity|].
  destruct (Double.gt _ _ || Double.eq _ _); reflexivity.
Qed.

Lemma Evaluate_tpl_lt B P args :
  B + P < TotalArgs -> tpl B P args = put B P args.
Proof.
  intros H. unfold PutNextArg.
  rewrite Evaluate_tpl_equation_1.
  destruct (lt_eq_lt_dec (B + P) TotalArgs) as [[h|h]|h]; try lia.
  reflexivity.
Qed.

Lemma Evaluate_tpl_eq B P args :
  B + P = TotalArgs -> tpl B P args = base args.
Proof.
  intros H. rewrite Evaluate_tpl_equation_1.
  destruct (lt_eq_lt_dec (B + P) TotalArgs) as [[h|h]|h]; try lia.
  reflexivity.
Qed.

Lemma UseBoundArg_true (bas : list (BoundArg BoundVal)) B P :
  UseBoundArg bas B P = true ->
  exists b, nth_error bas B = Some b /\ index b = B + P.
Proof.
  unfold UseBoundArg. destruct (nth_error bas B) as [b|]; [|discriminate].
  intros H. apply Nat.eqb_eq in H. eauto.
Qed.

Lemma UseBoundArg_false (bas : list (BoundArg BoundVal)) B P b :
  UseBoundArg bas B P = false -> nth_error bas B = Some b ->
  index b <> B + P.
Proof.
  unfold UseBoundArg. intros H E. rewrite E in H.
  now apply Nat.eqb_neq in H.
Qed.

(** The three ways [PutNextArg] goes on. *)
Lemma PutNextArg_bound B P args (w : World) b :
  UseBoundArg (boundArgs (self w)) B P = true ->
  nth_error (boundArgs (self w)) B = Some b ->
  put B P args w = tpl (B + 1) P (args ++ [ABound (value b)]) w.
Proof.
  intros U E. unfold PutNextArg, bind, gets. rewrite U, E.
  destruct (tpl _ _ _ w) as [[r w'] evs]. reflexivity.
Qed.

Lemma PutNextArg_param B P args (w : World) x :
  UseBoundArg (boundArgs (self w)) B P = false ->
  mat_at (parameters w) P 0 = Some x ->
  put B P args w =
  after [EvParam P 0] (tpl B (P + 1) (args ++ [AParam x]) w).
Proof.
  intros U E. unfold PutNextArg, parameters_at, bind, gets, emit, ret.
  rewrite U. simpl. rewrite E. simpl.
  destruct (tpl _ _ _ w) as [[r w'] evs]. reflexivity.
Qed.

Lemma PutNextArg_out_of_bounds B P args (w : World) :
  UseBoundArg (boundArgs (self w)) B P = false ->
  mat_at (parameters w) P 0 = None ->
  put B P args w = (inl IndexOutOfBounds, w, [EvParam P 0]).
Proof.
  intros U E. unfold PutNextArg, parameters_at, bind, gets, emit, throw.
  rewrite U. simpl. rewrite E. reflexivity.
Qed.

(** *** The walk over the slots, for every configuration

    Either a matrix access is out of bounds, and the call ends there
    with the store untouched, or the base case runs on the arguments
    collected so far followed by one argument per remaining slot.  The
    matrix entries among them are rows [P], [P + 1], ... of column 0,
    read in this order. *)
Lemma walk_shape n : forall B P args (w : World),
  B + P + n = TotalArgs ->
  (exists k, tpl B P args w = (inl IndexOutOfBounds, w, reads P (S k)))
  \/
  (exists tail,
     length tail = n /\
     tpl B P args w =
       after (reads P (length (params_of tail))) (base (args ++ tail) w) /\
     Forall2 (fun x r => mat_at (parameters w) r 0 = Some x)
             (params_of tail) (seq P (length (params_of tail)))).
Proof.
  induction n as [|n IH]; intros B P args w Hn.
  - rewrite Evaluate_tpl_eq by lia.
    right. exists []. rewrite app_nil_r, after_nil. simpl.
    repeat split. constructor.
  - rewrite Evaluate_tpl_lt by lia.
    destruct (UseBoundArg (boundArgs (self w)) B P) eqn:U.
    + destruct (UseBoundArg_true _ _ _ U) as (b & Eb & _).
      rewrite (PutNextArg_bound B P args w b U Eb).
      destruct (IH (B + 1) P (args ++ [ABound (value b)]) w ltac:(lia))
        as [[k Hk]|(tail & Hl & Ht & Hr)].
      * left. eauto.
      * right. exists (ABound (value b) :: tail). simpl.
        rewrite Hl, Ht, <- app_assoc. auto.
    + destruct (mat_at (parameters w) P 0) as [x|] eqn:Ex.
      * rewrite (PutNextArg_param B P args w x U Ex).
        destruct (IH B (P + 1) (args ++ [AParam x]) w ltac:(lia))
          as [[k Hk]|(tail & Hl & Ht & Hr)].
        -- left. exists (S k). rewrite Hk. unfold after; simpl.
           now rewrite Nat.add_1_r.
        -- right. exists (AParam x :: tail). simpl.
           rewrite Hl, Ht, <- app_assoc, after_after. simpl.
           rewrite Nat.add_1_r in *. repeat split. now constructor.
      * left. exists 0. now apply PutNextArg_out_of_bounds.
Qed.

(** *** The walk over the slots, with valid indices *)
Lemma walk_valid n : forall B P args (w : World) bas,
  boundArgs (self w) = bas ->
  B + P + n = TotalArgs ->
  valid_bound_indices TotalArgs bas ->
  (forall r, r < TotalArgs - length bas ->
     exists x, mat_at (parameters w) r 0 = Some x) ->
  B <= length bas ->
  (forall j b, j < B -> nth_error bas j = Some b -> index b < B + P) ->
  (forall j b, B <= j -> nth_error bas j = Some b -> B + P <= index b) ->
  rank bas (B + P) = P ->
  exists tail,
    length tail = n /\
    tpl B P args w =
      after (reads P (TotalArgs - length bas - P)) (base (args ++ tail) w) /\
    forall k, k < n ->
      slot_ok bas (parameters w) (B + P + k) (nth_error tail k).
Proof.
  induction n as [|n IH]; intros B P args w bas Hbas Hn Hv Hm HB Hlo Hhi Hr.
  - rewrite Evaluate_tpl_eq by lia. exists [].
    replace (TotalArgs - length bas - P) with 0 by lia.
    rewrite app_nil_r, after_nil.
    split; [reflexivity|]. split; [reflexivity|]. intros; lia.
  - rewrite Evaluate_tpl_lt by lia.
    destruct (UseBoundArg bas B P) eqn:U.
    + (* the slot takes the next bound argument *)
      destruct (UseBoundArg_true _ _ _ U) as (b & Eb & Ib).
      rewrite (PutNextArg_bound B P args w b)
        by (rewrite Hbas; assumption).
      assert (Hin : In b bas) by (eapply nth_error_In; eauto).
      assert (HB' : B < length bas)
        by (apply nth_error_Some; congruence).
      assert (Hbound : is_bound bas (B + P) = true)
        by exact (is_bound_true bas (B + P) b Hin Ib).
      destruct (IH (B + 1) P (args ++ [ABound (value b)]) w bas)
        as (tail & Hl & Ht & Hs); try assumption; try lia.
      * intros j b' Hj Ej.
        destruct (Nat.eq_dec j B) as [->|Hne].
        -- assert (b' = b) by congruence. subst. lia.
        -- specialize (Hlo j b' ltac:(lia) Ej). lia.
      * intros j b' Hj Ej.
        pose proof (valid_nth_lt TotalArgs bas B j b b' Hv
                      ltac:(lia) Eb Ej). lia.
      * replace (B + 1 + P) with (S (B + P)) by lia.
        rewrite rank_S, Hbound. lia.
      * exists (ABound (value b) :: tail).
        split; [simpl; lia|].
        split; [rewrite Ht, <- app_assoc; reflexivity|].
        intros [|k] Hk.
        -- rewrite Nat.add_0_r. split.
           ++ intros b' Hin' Ib'. simpl.
              apply In_nth_error in Hin' as (j & Ej).
              destruct (Nat.lt_trichotomy j B) as [Hj|[->|Hj]].
              ** specialize (Hlo j b' Hj Ej). lia.
              ** congruence.
              ** pose proof (valid_nth_lt TotalArgs bas B j b b' Hv
                               Hj Eb Ej). lia.
           ++ rewrite Hbound. discriminate.
        -- replace (B + P + S k) with (B + 1 + P + k) by lia.
           apply Hs. lia.
    + (* the slot takes the next matrix entry *)
      assert (Hhi' : forall j b, B <= j -> nth_error bas j = Some b ->
                                 B + P < index b).
      { intros j b' Hj Ej.
        destruct (nth_error bas B) as [bB|] eqn:EB;
          [|apply nth_error_None in EB;
            assert (j < length bas) by (apply nth_error_Some; congruence);
            lia].
        pose proof (UseBoundArg_false bas B P bB U EB).
        pose proof (Hhi B bB (Nat.le_refl _) EB).
        pose proof (valid_nth_gap TotalArgs bas B j bB b' Hv Hj EB Ej).
        lia. }
      assert (Hfree : is_bound bas (B + P) = false).
      { apply is_bound_false. intros b' Hin' Ib'.
        apply In_nth_error in Hin' as (j & Ej).
        destruct (Nat.lt_ge_cases j B) as [Hj|Hj].
        - specialize (Hlo j b' Hj Ej). lia.
        - specialize (Hhi' j b' Hj Ej). lia. }
      pose proof (valid_room TotalArgs bas B P Hv ltac:(lia) Hhi') as Hroom.
      destruct (Hm P ltac:(lia)) as [x Ex].
      rewrite (PutNextArg_param B P args w x)
        by (rewrite ?Hbas; assumption).
      destruct (IH B (P + 1) (args ++ [AParam x]) w bas)
        as (tail & Hl & Ht & Hs); try assumption; try lia.
      * intros j b' Hj Ej. specialize (Hlo j b' Hj Ej). lia.
      * intros j b' Hj Ej. specialize (Hhi' j b' Hj Ej). lia.
      * replace (B + (P + 1)) with (S (B + P)) by lia.
        rewrite rank_S, Hfree. lia.
      * exists (AParam x :: tail).
        split; [simpl; lia|]. split.
        -- rewrite Ht, <- app_assoc, after_after.
           replace (TotalArgs - length bas - P)
             with (S (TotalArgs - length bas - (P + 1))) by lia.
           simpl. rewrite Nat.add_1_r. reflexivity.
        -- intros [|k] Hk.
           ++ rewrite Nat.add_0_r. split.
              ** intros b' Hin' Ib'.
                 now apply (is_bound_false_inv bas (B + P) b' Hfree) in Hin'.
              ** intros _. rewrite Hr. simpl. eauto.
           ++ replace (B + P + S k) with (B + (P + 1) + k) by lia.
              apply Hs. lia.
Qed.

(** *** Reading a log *)

Lemma completed_reads P k (evs : list Event) :
  completed (reads P k ++ evs) = completed evs.
Proof.
  revert P; induction k as [|k IH]; intros P; simpl; [reflexivity|].
  apply IH.
Qed.

Lemma cv_calls_reads P k (evs : list Event) :
  cv_calls (reads P k ++ evs) = cv_calls evs.
Proof.
  revert P; induction k as [|k IH]; intros P; simpl; [reflexivity|].
  apply IH.
Qed.

Lemma param_reads_reads P k (evs : list Event) :
  param_reads (reads P k ++ evs) =
  map (fun r => (r, 0)) (seq P k) ++ param_reads evs.
Proof.
  revert P; induction k as [|k IH]; intros P; simpl; [reflexivity|].
  now rewrite IH.
Qed.

Lemma reads_no_cv P k args r m : ~ In (EvCV args r m : Event) (reads P k).
Proof.
  intros H. apply in_map_iff in H as (x & Hx & _). discriminate.
Qed.

(** *** One whole call *)

Local Abbreviation Ev :=
  (Evaluate TotalArgs cv_Evaluate cv_Model cv_moved_from).

Lemma Evaluate_cases (w : World) :
  (exists k, Ev w = (inl IndexOutOfBounds, w, reads 0 (S k)))
  \/
  (exists args,
     length args = TotalArgs /\
     Ev w = after (reads 0 (length (params_of args))) (base args w) /\
     Forall2 (fun x r => mat_at (parameters w) r 0 = Some x)
             (params_of args) (seq 0 (length (params_of args)))).
Proof.
  destruct (walk_shape TotalArgs 0 0 [] w eq_refl)
    as [[k Hk]|(tail & Hl & Ht & Hr)]; [left; eauto|].
  right. exists tail. auto.
Qed.

(** A call that returns a score ran the cross-validation once, on
    [TotalArgs] arguments, and updated the adapter by the rule of the
    base case. *)
Lemma Evaluate_inr (w : World) s :
  result (Ev w) = inr s ->
  exists args m,
    length args = TotalArgs /\
    cv_calls (events (Ev w)) = [args] /\
    completed (events (Ev w)) = [(s, m)] /\
    self (final (Ev w)) =
      if Double.gt (bestObjective (self w)) s
         || Double.eq (bestObjective (self w)) Double.max
      then {| boundArgs := boundArgs (self w);
              bestObjective := s;
              bestModel := m |}
      else self w.
Proof.
  destruct (Evaluate_cases w) as [[k Hk]|(args & Hl & He & _)];
    rewrite ?Hk, ?He; [discriminate|].
  rewrite Evaluate_base_eq. unfold after, result, final, events.
  destruct (cv_Evaluate args (cv w)) as [[e|x] c']; simpl;
    [discriminate|].
  destruct (Double.gt _ x || Double.eq _ _) eqn:C; simpl;
    intros [= <-]; exists args, (cv_Model c');
    rewrite cv_calls_reads, completed_reads, ?C; simpl; auto.
Qed.

(** A call that fails leaves the adapter as it was. *)
Lemma Evaluate_inl (w : World) f :
  result (Ev w) = inl f ->
  self (final (Ev w)) = self w /\ completed (events (Ev w)) = [].
Proof.
  destruct (Evaluate_cases w) as [[k Hk]|(args & Hl & He & _)];
    rewrite ?Hk, ?He.
  - intros _. split; [reflexivity|].
    unfold events; simpl snd.
    change (EvParam 0 0 :: reads 1 k) with (reads 0 (S k)).
    rewrite <- (app_nil_r (reads 0 (S k))). apply completed_reads.
  - rewrite Evaluate_base_eq. unfold after, result, final, events.
    destruct (cv_Evaluate args (cv w)) as [[e|x] c']; simpl.
    + intros _. split; [reflexivity|]. now rewrite completed_reads.
    + destruct (Double.gt _ x || Double.eq _ _); discriminate.
Qed.

(* ---------------------------------------------------------------- *)
(** *** The argument list *)

(** C1.  With strictly increasing bound-argument indices below
    [TotalArgs] and a parameter vector with one entry per slot that is
    not bound, [Evaluate] hands the cross-validation routine exactly one
    argument list; it has [TotalArgs] entries, and entry [i] is the
    bound value whose index is [i] when there is one, and otherwise the
    entry of the parameter vector at the rank of [i] among the slots
    that are not bound; a later slot that is not bound takes a later
    entry of the vector. *)
Theorem C1_argument_list (w : World) (vec : list float) :
  valid_bound_indices TotalArgs (boundArgs (self w)) ->
  parameters w = colvec vec ->
  length vec = TotalArgs - length (boundArgs (self w)) ->
  exists args,
    cv_calls (events (Ev w)) = [args] /\
    interleaved TotalArgs (boundArgs (self w)) vec args /\
    forall i j, i < j -> is_bound (boundArgs (self w)) i = false ->
      rank (boundArgs (self w)) i < rank (boundArgs (self w)) j.
Proof.
  intros Hv Hp Hlen.
  assert (Hat : forall r, r < length vec ->
                  mat_at (parameters w) r 0 = nth_error vec r).
  { intros r Hr. rewrite Hp. unfold mat_at, colvec; simpl.
    apply Nat.ltb_lt in Hr. rewrite Hr. simpl.
    now rewrite Nat.add_0_r. }
  destruct (walk_valid TotalArgs 0 0 [] w (boundArgs (self w)))
    as (args & Hl & He & Hs); try reflexivity; try assumption; try lia.
  - intros r Hr. rewrite Hat by lia.
    destruct (nth_error vec r) as [x|] eqn:E; [eauto|].
    apply nth_error_None in E. lia.
  - exists args. unfold Evaluate. rewrite He. unfold after, events. simpl.
    rewrite cv_calls_reads, Evaluate_base_eq.
    split.
    { destruct (cv_Evaluate args (cv w)) as [[e|x] c']; simpl;
        [reflexivity|].
      destruct (Double.gt _ x || Double.eq _ _); reflexivity. }
    split; [|intros i j; apply rank_lt].
    split; [assumption|].
    intros i Hi. destruct (Hs i Hi) as [Hb Hf]. simpl in Hb, Hf.
    split; [exact Hb|].
    intros Hfree. destruct (Hf Hfree) as (x & Hx & Hnth).
    exists x. split; [|assumption].
    destruct (Nat.lt_ge_cases (rank (boundArgs (self w)) i) (length vec))
      as [Hr|Hr].
    + now rewrite <- Hat.
    + rewrite Hp in Hx. unfold mat_at, colvec in Hx; simpl in Hx.
      apply Nat.ltb_ge in Hr. rewrite Hr in Hx. discriminate.
Qed.

(* ---------------------------------------------------------------- *)
(** *** The tracker, one call at a time *)

(** C3, amended.  When the stored best score is not the largest finite
    double, a call whose score equals the stored best score replaces
    neither the stored score nor the stored model. *)
Theorem C3_ties_keep_best (w : World) (s : float) :
  Double.eq (bestObjective (self w)) Double.max = false ->
  ties_keep_best TotalArgs cv_Evaluate cv_Model cv_moved_from w s.
Proof.
  intros Hmax Hres Heq.
  destruct (Evaluate_inr w s Hres) as (args & m & _ & _ & _ & Hself).
  rewrite (DoubleFacts.eq_not_gt _ _ Heq), Hmax in Hself. simpl in Hself.
  now rewrite Hself.
Qed.

(** C4.  A freshly constructed adapter stores the largest finite double
    as its best score; after one call that returns the score [s] it
    stores [s] and the model of that call, whatever [s] is. *)
Theorem C4_first_evaluation (MLAlgorithm_default : MLAlgorithm)
    (bas : list (BoundArg BoundVal)) (c : CVType) (p : mat) :
  let w0 := {| self := CVFunction_ctor MLAlgorithm_default bas;
               cv := c; parameters := p |} in
  bestObjective (self w0) = Double.max /\
  forall s, result (Ev w0) = inr s ->
    bestObjective (self (final (Ev w0))) = s /\
    completed (events (Ev w0)) = [(s, bestModel (self (final (Ev w0))))].
Proof.
  intros w0. split; [reflexivity|]. intros s Hres.
  destruct (Evaluate_inr w0 s Hres) as (args & m & _ & _ & Hc & Hself).
  change (bestObjective (self w0)) with Double.max in Hself.
  rewrite DoubleFacts.max_eq_max, orb_true_r in Hself.
  rewrite Hself, Hc. simpl. auto.
Qed.

(** C9.  Whenever the stored best score compares equal to the largest
    finite double when a call starts, a call that returns a score stores
    that score and the model of that call, whatever the score is. *)
Theorem C9_sentinel_replaced (w : World) (s : float) :
  Double.eq (bestObjective (self w)) Double.max = true ->
  result (Ev w) = inr s ->
  bestObjective (self (final (Ev w))) = s /\
  completed (events (Ev w)) = [(s, bestModel (self (final (Ev w))))].
Proof.
  intros Hmax Hres.
  destruct (Evaluate_inr w s Hres) as (args & m & _ & _ & Hc & Hself).
  rewrite Hmax, orb_true_r in Hself.
  rewrite Hself, Hc. simpl. auto.
Qed.

(** C5.  When the cross-validation routine throws [e] during a call,
    the call ends with that same [e], the routine has been called once,
    and the stored best score and model are the ones from before the
    call. *)
Theorem C5_failure_propagates (w : World) args (e : Exn) m :
  In (EvCV args (inl e) m) (events (Ev w)) ->
  result (Ev w) = inl (CvFailure e) /\
  cv_calls (events (Ev w)) = [args] /\
  bestObjective (self (final (Ev w))) = bestObjective (self w) /\
  bestModel (self (final (Ev w))) = bestModel (self w).
Proof.
  destruct (Evaluate_cases w) as [[k Hk]|(args' & Hl & He & _)];
    rewrite ?Hk, ?He.
  - intros H. now apply reads_no_cv in H.
  - rewrite Evaluate_base_eq. unfold after, result, final, events.
    destruct (cv_Evaluate args' (cv w)) as [[e'|x] c']; simpl.
    + intros H. apply in_app_or in H as [H|[H|[]]].
      * now apply reads_no_cv in H.
      * injection H as <- <- _. rewrite cv_calls_reads. auto.
    + destruct (Double.gt _ x || Double.eq _ _); simpl; intros H;
        apply in_app_or in H as [H|[H|[]]];
        solve [now apply reads_no_cv in H | discriminate].
Qed.

(** C8.  A call changes neither the stored bound arguments nor the
    caller's parameter matrix. *)
Theorem C8_frame (w : World) :
  boundArgs (self (final (Ev w))) = boundArgs (self w) /\
  parameters (final (Ev w)) = parameters w.
Proof.
  destruct (Evaluate_cases w) as [[k Hk]|(args & Hl & He & _)];
    rewrite ?Hk, ?He; [split; reflexivity|].
  rewrite Evaluate_base_eq. unfold after, final.
  destruct (cv_Evaluate args (cv w)) as [[e|x] c']; simpl;
    [split; reflexivity|].
  destruct (Double.gt _ x || Double.eq _ _); split; reflexivity.
Qed.

(** C7, amended.  No configuration of bound arguments is rejected: the
    constructor stores the bound arguments it is given, whatever their
    indices, and the first call either stops at a matrix access that is
    out of bounds or hands the cross-validation routine one list of
    [TotalArgs] arguments. *)
Theorem C7_no_validation (MLAlgorithm_default : MLAlgorithm)
    (bas : list (BoundArg BoundVal)) (c : CVType) (p : mat) :
  let w0 := {| self := CVFunction_ctor MLAlgorithm_default bas;
               cv := c; parameters := p |} in
  boundArgs (self w0) = bas /\
  ((result (Ev w0) = inl IndexOutOfBounds /\ cv_calls (events (Ev w0)) = [])
   \/
   (exists args,
      cv_calls (events (Ev w0)) = [args] /\ length args = TotalArgs)).
Proof.
  intros w0. split; [reflexivity|].
  destruct (Evaluate_cases w0) as [[k Hk]|(args & Hl & He & _)];
    rewrite ?Hk, ?He.
  - left. split; [reflexivity|]. unfold events; simpl snd.
    change (EvParam 0 0 :: reads 1 k) with (reads 0 (S k)).
    rewrite <- (app_nil_r (reads 0 (S k))). apply cv_calls_reads.
  - right. exists args. split; [|assumption].
    rewrite Evaluate_base_eq. unfold after, events.
    destruct (cv_Evaluate args (cv w0)) as [[e|x] c']; simpl.
    + now rewrite cv_calls_reads.
    + destruct (Double.gt _ x || Double.eq _ _); simpl;
        now rewrite cv_calls_reads.
Qed.

(* ---------------------------------------------------------------- *)
(** *** What is read from the matrix *)

Lemma same_outcome_after {A} (evs : list Event) (o1 o2 : Outcome A) :
  same_outcome o1 o2 -> same_outcome (after evs o1) (after evs o2).
Proof.
  destruct o1 as [[r1 w1] e1], o2 as [[r2 w2] e2].
  unfold same_outcome, after, result, final, events; simpl.
  intros (-> & -> & -> & ->). auto.
Qed.

Lemma walk_column_0 n : forall B P args (w1 w2 : World),
  B + P + n = TotalArgs ->
  self w1 = self w2 -> cv w1 = cv w2 ->
  (forall r, mat_at (parameters w1) r 0 = mat_at (parameters w2) r 0) ->
  same_outcome (tpl B P args w1) (tpl B P args w2).
Proof.
  induction n as [|n IH]; intros B P args w1 w2 Hn Hs Hc Hm.
  - rewrite !Evaluate_tpl_eq, !Evaluate_base_eq by lia.
    rewrite Hs, Hc.
    destruct (cv_Evaluate args (cv w2)) as [[e|x] c']; simpl.
    + repeat split.
    + destruct (Double.gt _ x || Double.eq _ _); repeat split.
  - rewrite !Evaluate_tpl_lt by lia.
    destruct (UseBoundArg (boundArgs (self w2)) B P) eqn:U.
    + destruct (UseBoundArg_true _ _ _ U) as (b & Eb & _).
      rewrite (PutNextArg_bound B P args w1 b),
              (PutNextArg_bound B P args w2 b)
        by (rewrite ?Hs; assumption).
      apply IH; auto; lia.
    + destruct (mat_at (parameters w2) P 0) as [x|] eqn:Ex.
      * rewrite (PutNextArg_param B P args w1 x),
                (PutNextArg_param B P args w2 x)
          by (rewrite ?Hs, ?Hm; assumption).
        apply same_outcome_after. apply IH; auto; lia.
      * rewrite (PutNextArg_out_of_bounds B P args w1),
                (PutNextArg_out_of_bounds B P args w2)
          by (rewrite ?Hs, ?Hm; assumption).
        repeat split; assumption.
Qed.

(** C10.  A call reads the matrix at column 0 only, at rows 0, 1, ...
    in this order and once each; when it reaches the cross-validation
    routine it has read one row per argument taken from the matrix, and
    these arguments are the entries read, in the same order; matrices
    with the same column 0 give the same result, the same log and the
    same adapter and cross-validation object; with valid indices and
    enough rows, the rows read are those of the slots that are not
    bound, [TotalArgs] minus the number of bound arguments. *)
Theorem C10_column_0_only (w : World) :
  (exists k, param_reads (events (Ev w)) = map (fun r => (r, 0)) (seq 0 k))
  /\
  (forall args, In args (cv_calls (events (Ev w))) ->
     param_reads (events (Ev w)) =
       map (fun r => (r, 0)) (seq 0 (length (params_of args))) /\
     Forall2 (fun x r => mat_at (parameters w) r 0 = Some x)
             (params_of args) (seq 0 (length (params_of args))))
  /\
  (forall p',
     (forall r, mat_at p' r 0 = mat_at (parameters w) r 0) ->
     same_outcome
       (Ev {| self := self w; cv := cv w; parameters := p' |}) (Ev w))
  /\
  (valid_bound_indices TotalArgs (boundArgs (self w)) ->
   (forall r, r < TotalArgs - length (boundArgs (self w)) ->
      exists x, mat_at (parameters w) r 0 = Some x) ->
   param_reads (events (Ev w)) =
     map (fun r => (r, 0))
         (seq 0 (TotalArgs - length (boundArgs (self w))))).
Proof.
  split; [|split; [|split]].
  - destruct (Evaluate_cases w) as [[k Hk]|(args & Hl & He & _)];
      rewrite ?Hk, ?He.
    + exists (S k). unfold events; simpl snd.
      change (EvParam 0 0 :: reads 1 k) with (reads 0 (S k)).
      rewrite <- (app_nil_r (reads 0 (S k))), param_reads_reads.
      simpl. now rewrite app_nil_r.
    + exists (length (params_of args)).
      rewrite Evaluate_base_eq. unfold after, events.
      destruct (cv_Evaluate args (cv w)) as [[e|x] c']; simpl;
        [|destruct (Double.gt _ x || Double.eq _ _); simpl];
        rewrite param_reads_reads; simpl; now rewrite app_nil_r.
  - intros args.
    destruct (Evaluate_cases w) as [[k Hk]|(args' & Hl & He & Hr)];
      rewrite ?Hk, ?He.
    + unfold events; simpl snd.
      change (EvParam 0 0 :: reads 1 k) with (reads 0 (S k)).
      rewrite <- (app_nil_r (reads 0 (S k))), cv_calls_reads.
      intros [].
    + rewrite Evaluate_base_eq. unfold after, events.
      destruct (cv_Evaluate args' (cv w)) as [[e|x] c']; simpl;
        [|destruct (Double.gt _ x || Double.eq _ _); simpl];
        rewrite cv_calls_reads, param_reads_reads; simpl;
        intros [<-|[]]; rewrite app_nil_r; auto.
  - intros p' Hp. apply (walk_column_0 TotalArgs); auto.
  - intros Hv Hm.
    destruct (walk_valid TotalArgs 0 0 [] w (boundArgs (self w)))
      as (args & Hl & He & Hs); try reflexivity; try assumption; try lia.
    unfold Evaluate. rewrite He. simpl app.
    rewrite Nat.sub_0_r, Evaluate_base_eq.
    unfold after, events.
    destruct (cv_Evaluate args (cv w)) as [[e|x] c']; simpl;
      [|destruct (Double.gt _ x || Double.eq _ _); simpl];
      rewrite param_reads_reads; simpl; now rewrite app_nil_r.
Qed.

(* ---------------------------------------------------------------- *)
(** *** The tracker, over a tuning run *)

Lemma completed_app (e1 e2 : list Event) :
  completed (e1 ++ e2) = completed e1 ++ completed e2.
Proof.
  induction e1 as [|[r c|args [e|s] m] e1 IH]; simpl; auto.
  now rewrite IH.
Qed.

Lemma earliest_min_first (s : float) (m : MLAlgorithm) :
  earliest_min [(s, m)] s m.
Proof. exists [], []. repeat split; constructor. Qed.

Lemma earliest_min_replaced (h : list (float * MLAlgorithm)) b bm s m :
  earliest_min h b bm -> Double.gt b s = true ->
  earliest_min (h ++ [(s, m)]) s m.
Proof.
  intros (h1 & h2 & -> & H1 & H2) Hgt.
  exists (h1 ++ (b, bm) :: h2), []. split; [reflexivity|].
  split; [|constructor].
  apply Forall_app. split; [|constructor; [assumption|]].
  - eapply Forall_impl; [|exact H1]. intros x Hx.
    exact (DoubleFacts.gt_trans _ _ _ Hx Hgt).
  - eapply Forall_impl; [|exact H2]. intros x Hx.
    exact (DoubleFacts.gt_le_trans _ _ _ Hgt Hx).
Qed.

Lemma earliest_min_kept (h : list (float * MLAlgorithm)) b bm s m :
  earliest_min h b bm -> Double.le b s = true ->
  earliest_min (h ++ [(s, m)]) b bm.
Proof.
  intros (h1 & h2 & -> & H1 & H2) Hle.
  exists h1, (h2 ++ [(s, m)]). split; [now rewrite <- app_assoc|].
  split; [assumption|].
  apply Forall_app. split; [assumption|]. constructor; [assumption|constructor].
Qed.

Lemma earliest_min_ordinary (h : list (float * MLAlgorithm)) b bm :
  earliest_min h b bm -> ordinary_scores h ->
  Double.isnan b = false /\ Double.eq b Double.max = false.
Proof.
  intros (h1 & h2 & -> & _ & _) Ho.
  apply Forall_app in Ho as [_ Ho]. now inversion Ho.
Qed.

(** One step of the optimizer keeps the tracker's invariant. *)
Lemma optimizer_step_inv (w : World) (h : list (float * MLAlgorithm)) p :
  tracker_inv h (self w) -> ordinary_scores h ->
  let o := optimizer_step TotalArgs cv_Evaluate cv_Model cv_moved_from
             p w in
  ordinary_scores (completed (events o)) ->
  tracker_inv (h ++ completed (events o)) (self (final o)).
Proof.
  intros Hinv Hh o Ho. subst o. unfold optimizer_step in *.
  set (w' := {| self := self w; cv := cv w; parameters := p |}) in *.
  destruct (result (Ev w')) as [f|s] eqn:R.
  - destruct (Evaluate_inl w' f R) as [-> ->]. now rewrite app_nil_r.
  - destruct (Evaluate_inr w' s R) as (args & m & _ & _ & Hc & Hself).
    rewrite Hc in *. rewrite Hself. change (self w') with (self w).
    inversion Ho as [|? ? [Hnan Hmax] _]; subst; simpl in Hnan, Hmax.
    destruct h as [|x h].
    + simpl in Hinv. rewrite Hinv, DoubleFacts.max_eq_max, orb_true_r.
      simpl. apply earliest_min_first.
    + simpl in Hinv.
      destruct (earliest_min_ordinary _ _ _ Hinv Hh) as [Hb1 Hb2].
      rewrite Hb2, orb_false_r.
      destruct (Double.gt (bestObjective (self w)) s) eqn:G.
      * change (tracker_inv (((x :: h) ++ [(s, m)])) ?c)
          with (earliest_min ((x :: h) ++ [(s, m)])
                  (bestObjective c) (bestModel c)).
        simpl bestObjective. simpl bestModel.
        eapply earliest_min_replaced; eauto.
      * change (tracker_inv (((x :: h) ++ [(s, m)])) ?c)
          with (earliest_min ((x :: h) ++ [(s, m)])
                  (bestObjective c) (bestModel c)).
        apply earliest_min_kept; [assumption|].
        now apply DoubleFacts.not_gt_le.
Qed.

Lemma tuning_run_inv ps : forall (w : World) (h : list (float * MLAlgorithm)),
  tracker_inv h (self w) -> ordinary_scores h ->
  let run := tuning_run TotalArgs cv_Evaluate cv_Model cv_moved_from
               ps w in
  ordinary_scores (completed (snd run)) ->
  tracker_inv (h ++ completed (snd run)) (self (fst run)).
Proof.
  induction ps as [|p ps IH]; intros w h Hinv Hh; simpl.
  - intros _. now rewrite app_nil_r.
  - set (o := optimizer_step _ _ _ _ p w).
    specialize (IH (final o)).
    destruct (tuning_run _ _ _ _ ps (final o)) as [w' evs] eqn:R.
    simpl in *. rewrite completed_app. intros Ho.
    apply Forall_app in Ho as [Ho1 Ho2].
    rewrite app_assoc. apply IH; [|apply Forall_app; split|]; auto.
    now apply optimizer_step_inv.
Qed.

(** C2, amended.  After a tuning run from a freshly constructed adapter
    in which no completed evaluation scored NaN or the largest finite
    double, and at least one evaluation completed, the stored best score
    is the least score and the stored model is the model of the earliest
    evaluation with that score. *)
Theorem C2_tracks_earliest_min (MLAlgorithm_default : MLAlgorithm)
    (bas : list (BoundArg BoundVal)) (c : CVType) (p : mat)
    (ps : list mat) :
  let w0 := {| self := CVFunction_ctor MLAlgorithm_default bas;
               cv := c; parameters := p |} in
  ordinary_scores
    (completed (snd (tuning_run TotalArgs cv_Evaluate cv_Model
                       cv_moved_from ps w0))) ->
  tracks_earliest_min TotalArgs cv_Evaluate cv_Model cv_moved_from w0 ps.
Proof.
  intros w0 Ho Hne.
  pose proof (tuning_run_inv ps w0 [] eq_refl (Forall_nil _) Ho) as H.
  simpl in H.
  destruct (completed (snd (tuning_run _ _ _ _ ps w0))); [congruence|].
  exact H.
Qed.

(* ---------------------------------------------------------------- *)
(** *** Further properties of one call *)

Lemma events_after {A} (evs : list Event) (o : Outcome A) :
  events (after evs o) = evs ++ events o.
Proof. reflexivity. Qed.

Lemma base_log args (w : World) :
  events (base args w) =
  [EvCV args (fst (cv_Evaluate args (cv w)))
        (cv_Model (snd (cv_Evaluate args (cv w))))].
Proof.
  rewrite Evaluate_base_eq.
  destruct (cv_Evaluate args (cv w)) as [[e|x] c']; simpl; [reflexivity|].
  destruct (Double.gt _ x || Double.eq _ _); reflexivity.
Qed.

Lemma cv_calls_app (e1 e2 : list Event) :
  cv_calls (e1 ++ e2) = cv_calls e1 ++ cv_calls e2.
Proof.
  induction e1 as [|[r c|args r m] e1 IH]; simpl; auto.
  now rewrite IH.
Qed.

Lemma cv_calls_only_reads P k : cv_calls (reads P k) = [].
Proof.
  rewrite <- (app_nil_r (reads P k)). apply cv_calls_reads.
Qed.

Lemma param_reads_only_reads P k :
  param_reads (reads P k) = map (fun r => (r, 0)) (seq P k).
Proof.
  rewrite <- (app_nil_r (reads P k)), param_reads_reads.
  simpl. apply app_nil_r.
Qed.

(** The log of a call that reaches the base case. *)
Lemma reached_log P k args (w : World) :
  cv_calls (events (after (reads P k) (base args w))) = [args] /\
  param_reads (events (after (reads P k) (base args w))) =
    map (fun r => (r, 0)) (seq P k).
Proof.
  rewrite events_after, base_log, cv_calls_reads, param_reads_reads.
  simpl. now rewrite app_nil_r.
Qed.

(** X1.  The score a call returns is the score the cross-validation
    routine returned, whether or not the tracker took it. *)
Theorem X1_score_returned (w : World) args (s : float) m :
  In (EvCV args (inr s) m) (events (Ev w)) ->
  result (Ev w) = inr s.
Proof.
  destruct (Evaluate_cases w) as [[k Hk]|(args' & Hl & He & _)];
    rewrite ?Hk, ?He.
  - intros H. now apply reads_no_cv in H.
  - rewrite Evaluate_base_eq. unfold after, result, final, events.
    destruct (cv_Evaluate args' (cv w)) as [[e'|x] c']; simpl.
    + intros H. apply in_app_or in H as [H|[H|[]]];
        [now apply reads_no_cv in H | discriminate].
    + destruct (Double.gt _ x || Double.eq _ _); simpl; intros H;
        apply in_app_or in H as [H|[H|[]]];
        solve [now apply reads_no_cv in H | congruence].
Qed.

(** X2.  While the stored best score is not the largest finite double,
    a call that returns the score [s] stores it, with its model,
    exactly when [s] is strictly smaller than the stored score, and
    leaves the adapter alone otherwise; the stored score never gets
    greater. *)
Theorem X2_replaced_on_improvement_only (w : World) (s : float) :
  Double.eq (bestObjective (self w)) Double.max = false ->
  result (Ev w) = inr s ->
  (Double.gt (bestObjective (self w)) s = true ->
     bestObjective (self (final (Ev w))) = s /\
     completed (events (Ev w)) = [(s, bestModel (self (final (Ev w))))]) /\
  (Double.gt (bestObjective (self w)) s = false ->
     self (final (Ev w)) = self w) /\
  Double.gt (bestObjective (self (final (Ev w)))) (bestObjective (self w))
    = false.
Proof.
  intros Hmax Hres.
  destruct (Evaluate_inr w s Hres) as (args & m & _ & _ & Hc & Hself).
  rewrite Hmax, orb_false_r in Hself. rewrite Hself, Hc.
  destruct (Double.gt (bestObjective (self w)) s) eqn:G; simpl.
  - repeat split; try discriminate.
    now apply DoubleFacts.gt_asym.
  - repeat split; try discriminate.
    apply DoubleFacts.gt_irrefl.
Qed.

Lemma nan_best_kept (w : World) :
  Double.isnan (bestObjective (self w)) = true ->
  self (final (Ev w)) = self w.
Proof.
  intros Hnan. destruct (result (Ev w)) as [f|s] eqn:R.
  - now destruct (Evaluate_inl w f R).
  - destruct (Evaluate_inr w s R) as (args & m & _ & _ & _ & Hself).
    now rewrite (DoubleFacts.nan_gt_l _ s Hnan),
                (DoubleFacts.nan_eq_l _ Double.max Hnan) in Hself.
Qed.

(** X3.  Once the stored best score is NaN, no evaluation of a tuning
    run replaces it or the stored model, whatever the scores are. *)
Theorem X3_nan_best_is_kept (ps : list mat) : forall (w : World),
  Double.isnan (bestObjective (self w)) = true ->
  self (fst (tuning_run TotalArgs cv_Evaluate cv_Model cv_moved_from ps w))
  = self w.
Proof.
  induction ps as [|p ps IH]; intros w Hnan; simpl; [reflexivity|].
  set (o := optimizer_step _ _ _ _ p w).
  assert (Ho : self (final o) = self w).
  { subst o. unfold optimizer_step.
    now rewrite nan_best_kept. }
  specialize (IH (final o)). rewrite Ho in IH. specialize (IH Hnan).
  destruct (tuning_run _ _ _ _ ps (final o)) as [w' evs].
  exact IH.
Qed.

(** X4.  A NaN score is never stored, unless the stored best score is
    the largest finite double. *)
Theorem X4_nan_score_ignored (w : World) (s : float) :
  Double.isnan s = true ->
  Double.eq (bestObjective (self w)) Double.max = false ->
  result (Ev w) = inr s ->
  self (final (Ev w)) = self w.
Proof.
  intros Hnan Hmax Hres.
  destruct (Evaluate_inr w s Hres) as (args & m & _ & _ & _ & Hself).
  now rewrite (DoubleFacts.nan_gt_r _ s Hnan), Hmax in Hself.
Qed.

(** X5.  In every store and with every configuration, a call resolves
    all its overloads; it either stops at a matrix access out of
    bounds, with the store untouched and the cross-validation routine
    not called, or calls the routine once, with [TotalArgs]
    arguments. *)
Theorem X5_one_call_on_all_slots (w : World) :
  result (Ev w) <> inl NoOverload /\
  ((result (Ev w) = inl IndexOutOfBounds /\ final (Ev w) = w /\
    cv_calls (events (Ev w)) = [])
   \/
   (exists args,
      cv_calls (events (Ev w)) = [args] /\ length args = TotalArgs)).
Proof.
  destruct (Evaluate_cases w) as [[k Hk]|(args & Hl & He & _)];
    rewrite ?Hk, ?He.
  - split; [discriminate|]. left. repeat split.
    unfold events; simpl snd.
    change (EvParam 0 0 :: reads 1 k) with (reads 0 (S k)).
    apply cv_calls_only_reads.
  - split.
    + rewrite Evaluate_base_eq. unfold after, result.
      destruct (cv_Evaluate args (cv w)) as [[e|x] c']; simpl;
        [discriminate|].
      destruct (Double.gt _ x || Double.eq _ _); discriminate.
    + right. exists args. split; [apply reached_log|assumption].
Qed.

(** The arguments and the matrix accesses of a call depend on the bound
    arguments and the matrix only. *)
Lemma walk_same_log n : forall B P args (w1 w2 : World),
  B + P + n = TotalArgs ->
  boundArgs (self w1) = boundArgs (self w2) ->
  parameters w1 = parameters w2 ->
  cv_calls (events (tpl B P args w1)) = cv_calls (events (tpl B P args w2))
  /\
  param_reads (events (tpl B P args w1)) =
  param_reads (events (tpl B P args w2)).
Proof.
  induction n as [|n IH]; intros B P args w1 w2 Hn Hb Hp.
  - rewrite !Evaluate_tpl_eq, !base_log by lia. split; reflexivity.
  - rewrite !Evaluate_tpl_lt by lia.
    destruct (UseBoundArg (boundArgs (self w2)) B P) eqn:U.
    + destruct (UseBoundArg_true _ _ _ U) as (b & Eb & _).
      rewrite (PutNextArg_bound B P args w1 b),
              (PutNextArg_bound B P args w2 b)
        by (rewrite ?Hb; assumption).
      apply IH; auto; lia.
    + destruct (mat_at (parameters w2) P 0) as [x|] eqn:Ex.
      * rewrite (PutNextArg_param B P args w1 x),
                (PutNextArg_param B P args w2 x)
          by (rewrite ?Hb, ?Hp; assumption).
        rewrite !events_after. simpl.
        destruct (IH B (P + 1) (args ++ [AParam x]) w1 w2) as [-> ->];
          auto; lia.
      * rewrite (PutNextArg_out_of_bounds B P args w1),
                (PutNextArg_out_of_bounds B P args w2)
          by (rewrite ?Hb, ?Hp; assumption).
        split; reflexivity.
Qed.

(** X6.  The argument list handed to the cross-validation routine and
    the matrix accesses depend on the bound arguments and the matrix
    only: neither the stored best score and model nor the state of the
    routine changes them. *)
Theorem X6_assembly_ignores_tracker (w1 w2 : World) :
  boundArgs (self w1) = boundArgs (self w2) ->
  parameters w1 = parameters w2 ->
  cv_calls (events (Ev w1)) = cv_calls (events (Ev w2)) /\
  param_reads (events (Ev w1)) = param_reads (events (Ev w2)).
Proof. intros Hb Hp. now apply (walk_same_log TotalArgs). Qed.

(** The bound values of the pack are the next bound arguments, in the
    order of the tuple. *)
Lemma skipn_nth_error {A} (l : list A) : forall n x,
  nth_error l n = Some x -> skipn n l = x :: skipn (S n) l.
Proof.
  induction l as [|y l IH]; intros [|n] x H; try discriminate.
  - now injection H as ->.
  - simpl in H. simpl. now apply IH.
Qed.

Lemma walk_sources n : forall B P args (w : World),
  B + P + n = TotalArgs ->
  (exists k, tpl B P args w = (inl IndexOutOfBounds, w, reads P (S k)))
  \/
  (exists tail,
     tpl B P args w =
       after (reads P (length (params_of tail))) (base (args ++ tail) w) /\
     Forall2 (fun x r => mat_at (parameters w) r 0 = Some x)
             (params_of tail) (seq P (length (params_of tail))) /\
     bounds_of tail =
       map value (firstn (length (bounds_of tail))
                         (skipn B (boundArgs (self w))))).
Proof.
  induction n as [|n IH]; intros B P args w Hn.
  - rewrite Evaluate_tpl_eq by lia.
    right. exists []. rewrite app_nil_r, after_nil. simpl.
    repeat split. constructor.
  - rewrite Evaluate_tpl_lt by lia.
    destruct (UseBoundArg (boundArgs (self w)) B P) eqn:U.
    + destruct (UseBoundArg_true _ _ _ U) as (b & Eb & _).
      rewrite (PutNextArg_bound B P args w b U Eb).
      destruct (IH (B + 1) P (args ++ [ABound (value b)]) w ltac:(lia))
        as [[k Hk]|(tail & Ht & Hr & Hb)].
      * left. eauto.
      * right. exists (ABound (value b) :: tail). split; [|split].
        -- simpl. now rewrite Ht, <- app_assoc.
        -- exact Hr.
        -- cbn [bounds_of length].
           rewrite (skipn_nth_error _ _ _ Eb), firstn_cons, map_cons.
           f_equal. rewrite Nat.add_1_r in Hb. exact Hb.
    + destruct (mat_at (parameters w) P 0) as [x|] eqn:Ex.
      * rewrite (PutNextArg_param B P args w x U Ex).
        destruct (IH B (P + 1) (args ++ [AParam x]) w ltac:(lia))
          as [[k Hk]|(tail & Ht & Hr & Hb)].
        -- left. exists (S k). rewrite Hk. unfold after; simpl.
           now rewrite Nat.add_1_r.
        -- right. exists (AParam x :: tail). split; [|split].
           ++ simpl. rewrite Ht, <- app_assoc, after_after. simpl.
              now rewrite Nat.add_1_r.
           ++ simpl. rewrite Nat.add_1_r in Hr. now constructor.
           ++ exact Hb.
      * left. exists 0. now apply PutNextArg_out_of_bounds.
Qed.

(** X8.  Whatever the indices of the bound arguments, the bound values
    in the argument list are the first bound arguments of the tuple, in
    the order of the tuple: none is used twice or out of turn. *)
Theorem X8_bound_values_in_tuple_order (w : World) args :
  In args (cv_calls (events (Ev w))) ->
  bounds_of args =
    map value (firstn (length (bounds_of args)) (boundArgs (self w))).
Proof.
  unfold Evaluate.
  destruct (walk_sources TotalArgs 0 0 [] w eq_refl)
    as [[k Hk]|(tail & Ht & _ & Hb)]; rewrite ?Hk, ?Ht.
  - unfold events; simpl snd.
    change (EvParam 0 0 :: reads 1 k) with (reads 0 (S k)).
    rewrite cv_calls_only_reads. intros [].
  - destruct (reached_log 0 (length (params_of tail)) ([] ++ tail) w)
      as [-> _].
    simpl. intros [<-|[]]. exact Hb.
Qed.

Lemma pack_length (args : list (Arg BoundVal)) :
  length args = length (bounds_of args) + length (params_of args).
Proof.
  induction args as [|[v|x] args IH]; simpl; lia.
Qed.

Lemma valid_length (bas : list (BoundArg BoundVal)) :
  valid_bound_indices TotalArgs bas -> length bas <= TotalArgs.
Proof.
  intros Hv.
  destruct (nth_error bas 0) as [b0|] eqn:E0;
    [|apply nth_error_None in E0; lia].
  destruct (nth_error bas (length bas - 1)) as [bl|] eqn:El;
    [|apply nth_error_None in El;
      assert (0 < length bas) by (apply nth_error_Some; congruence); lia].
  pose proof (valid_nth_gap TotalArgs bas 0 (length bas - 1) b0 bl Hv
                ltac:(lia) E0 El).
  pose proof (valid_nth_range TotalArgs bas _ bl Hv El).
  lia.
Qed.

Lemma Forall2_rows (f : nat -> option float) (v : list float) :
  (forall r, r < length v -> f r = nth_error v r) ->
  forall n P l, P + n = length v ->
    Forall2 (fun x r => f r = Some x) l (seq P n) -> l = skipn P v.
Proof.
  intros Hf. induction n as [|n IH]; intros P l Hn H; simpl in H.
  - inversion H; subst. symmetry. apply skipn_all2. lia.
  - inversion H as [|x r l' s' Hx Hl]; subst.
    rewrite Hf in Hx by lia.
    rewrite (skipn_nth_error _ _ _ Hx). f_equal.
    apply IH; [lia|assumption].
Qed.

(** X7.  With valid indices and a parameter vector of the right length,
    the argument list uses both sources up, each in its own order: its
    bound values are the values of the tuple and its other entries are
    the parameter vector. *)
Theorem X7_sources_in_order (w : World) (vec : list float) :
  valid_bound_indices TotalArgs (boundArgs (self w)) ->
  parameters w = colvec vec ->
  length vec = TotalArgs - length (boundArgs (self w)) ->
  exists args,
    cv_calls (events (Ev w)) = [args] /\
    bounds_of args = map value (boundArgs (self w)) /\
    params_of args = vec.
Proof.
  intros Hv Hp Hlen.
  assert (Hat : forall r, r < length vec ->
                  mat_at (parameters w) r 0 = nth_error vec r).
  { intros r Hr. rewrite Hp. unfold mat_at, colvec; simpl.
    apply Nat.ltb_lt in Hr. rewrite Hr. simpl.
    now rewrite Nat.add_0_r. }
  pose proof (valid_length _ Hv) as Hle.
  destruct (walk_valid TotalArgs 0 0 [] w (boundArgs (self w)))
    as (args' & Hl' & He' & _); try reflexivity; try assumption; try lia.
  { intros r Hr. rewrite Hat by lia.
    destruct (nth_error vec r) as [x|] eqn:E; [eauto|].
    apply nth_error_None in E. lia. }
  simpl app in He'. rewrite Nat.sub_0_r in He'.
  destruct (reached_log 0 (TotalArgs - length (boundArgs (self w))) args' w)
    as [Hc' Hr'].
  rewrite <- He' in Hc', Hr'.
  destruct (walk_sources TotalArgs 0 0 [] w eq_refl)
    as [[k Hk]|(args & Ht & Hrows & Hb)].
  - rewrite Hk in Hc'. unfold events in Hc'; simpl snd in Hc'.
    change (EvParam 0 0 :: reads 1 k) with (reads 0 (S k)) in Hc'.
    rewrite cv_calls_only_reads in Hc'. discriminate.
  - simpl app in Ht.
    destruct (reached_log 0 (length (params_of args)) args w) as [Hc Hr].
    rewrite <- Ht in Hc, Hr.
    assert (args' = args) by congruence. subst args'.
    assert (Hk : length (params_of args) = length vec).
    { rewrite Hr in Hr'. apply (f_equal (@length _)) in Hr'.
      rewrite !length_map, !length_seq in Hr'. lia. }
    exists args. unfold Evaluate. split; [exact Hc|]. split.
    + rewrite Hb. simpl skipn.
      pose proof (pack_length args) as Hpl.
      rewrite firstn_all2; [reflexivity|]. lia.
    + rewrite Hk in Hrows.
      apply (Forall2_rows _ vec Hat (length vec) 0); [lia|assumption].
Qed.

(** X9.  In a call that returns a score, the model is moved out of the
    cross-validation object exactly when the tracker takes it;
    otherwise the object is left as its evaluation left it. *)
Theorem X9_model_moved_on_replacement_only (w : World) (s : float) :
  result (Ev w) = inr s ->
  exists args,
    cv_calls (events (Ev w)) = [args] /\
    cv (final (Ev w)) =
      if Double.gt (bestObjective (self w)) s
         || Double.eq (bestObjective (self w)) Double.max
      then cv_moved_from (snd (cv_Evaluate args (cv w)))
      else snd (cv_Evaluate args (cv w)).
Proof.
  destruct (Evaluate_cases w) as [[k Hk]|(args & Hl & He & _)].
  - rewrite Hk. discriminate.
  - intros Hres. exists args.
    destruct (reached_log 0 (length (params_of args)) args w) as [Hc _].
    rewrite <- He in Hc. split; [exact Hc|].
    rewrite He in *. rewrite Evaluate_base_eq in *.
    unfold after, result, final in *.
    destruct (cv_Evaluate args (cv w)) as [[e|x] c']; simpl in *;
      [discriminate|].
    destruct (Double.gt _ x || Double.eq _ _) eqn:C; simpl in *;
      assert (x = s) by congruence; subst; rewrite C; reflexivity.
Qed.

(* ---------------------------------------------------------------- *)
(** *** Further properties of a tuning run *)

Lemma Evaluate_keeps_boundArgs (w : World) :
  boundArgs (self (final (Ev w))) = boundArgs (self w).
Proof.
  destruct (result (Ev w)) as [f|s] eqn:R.
  - now destruct (Evaluate_inl w f R) as [-> _].
  - destruct (Evaluate_inr w s R) as (args & m & _ & _ & _ & ->).
    destruct (Double.gt _ s || Double.eq _ _); reflexivity.
Qed.

Lemma Evaluate_calls_at_most_once (w : World) :
  length (cv_calls (events (Ev w))) <= 1.
Proof.
  destruct (Evaluate_cases w) as [[k Hk]|(args & Hl & He & _)];
    rewrite ?Hk, ?He.
  - unfold events; simpl snd.
    change (EvParam 0 0 :: reads 1 k) with (reads 0 (S k)).
    rewrite cv_calls_only_reads. simpl. lia.
  - destruct (reached_log 0 (length (params_of args)) args w) as [-> _].
    simpl. lia.
Qed.

(** X10.  A tuning run keeps the bound arguments of the adapter, and
    calls the cross-validation routine at most once per step. *)
Theorem X10_run_keeps_plan (ps : list mat) : forall (w : World),
  let run := tuning_run TotalArgs cv_Evaluate cv_Model cv_moved_from
               ps w in
  boundArgs (self (fst run)) = boundArgs (self w) /\
  length (cv_calls (snd run)) <= length ps.
Proof.
  induction ps as [|p ps IH]; intros w; simpl; [split; auto|].
  set (o := optimizer_step _ _ _ _ p w).
  specialize (IH (final o)). simpl in IH.
  destruct (tuning_run _ _ _ _ ps (final o)) as [w' evs]. simpl in *.
  destruct IH as [IH1 IH2]. subst o. unfold optimizer_step in *.
  rewrite Evaluate_keeps_boundArgs in IH1. split; [exact IH1|].
  rewrite cv_calls_app, length_app.
  pose proof (Evaluate_calls_at_most_once
                {| self := self w; cv := cv w; parameters := p |}).
  lia.
Qed.

End Correctness.

(* ================================================================== *)
(** ** No slot at all *)

(** C6.  When [TotalArgs] is 0, [Evaluate] calls the cross-validation
    routine once, with the empty argument list, reads nothing from the
    matrix, and returns what that call returns; this holds in every
    store, in particular without bound arguments and with an empty
    parameter vector. *)
Theorem C6_no_arguments {BoundVal MLAlgorithm CVType Exn : Type}
    (cv_Evaluate : list (Arg BoundVal) -> CVType -> (Exn + float) * CVType)
    (cv_Model : CVType -> MLAlgorithm) (cv_moved_from : CVType -> CVType)
    (w : World BoundVal MLAlgorithm CVType) :
  let o := Evaluate 0 cv_Evaluate cv_Model cv_moved_from w in
  let r := cv_Evaluate [] (cv w) in
  events o = [EvCV [] (fst r) (cv_Model (snd r))] /\
  cv_calls (events o) = [[]] /\
  result o =
    match fst r with inl e => inl (CvFailure e) | inr s => inr s end.
Proof.
  unfold Evaluate. rewrite Evaluate_tpl_eq by reflexivity.
  rewrite Evaluate_base_eq.
  destruct (cv_Evaluate [] (cv w)) as [[e|x] c']; simpl.
  - repeat split.
  - destruct (Double.gt _ x || Double.eq _ _); repeat split.
Qed.

(* ================================================================== *)
(** ** The theorems at work, and where the specification departs *)

Module Runs.

Import Toy.

(** The scenario of the specification: three slots, bound arguments at
    slots 0 and 2, one parameter. *)
Definition kernel_degree : list (BoundArg BoundVal) :=
  [mkBoundArg 0 7; mkBoundArg 2 9].

Lemma kernel_degree_valid : valid_bound_indices 3 kernel_degree.
Proof.
  split; simpl.
  - repeat constructor.
  - repeat constructor.
Defined.

Lemma C1_witness :
  let w := fresh kernel_degree (colvec [0.5%float]) in
  valid_bound_indices 3 (boundArgs (self w)) /\
  exists args,
    cv_calls (events (Evaluate 3 w)) = [args] /\
    interleaved 3 (boundArgs (self w)) [0.5%float] args /\
    forall i j, i < j -> is_bound (boundArgs (self w)) i = false ->
      rank (boundArgs (self w)) i < rank (boundArgs (self w)) j.
Proof.
  split; [exact kernel_degree_valid|].
  exact (C1_argument_list 3 cv_Evaluate cv_Model cv_moved_from
           (fresh kernel_degree (colvec [0.5%float])) [0.5%float]
           kernel_degree_valid eq_refl eq_refl).
Defined.

(** Scores 10, 7.5 and 9, as in the specification. *)
Definition three_steps : list mat :=
  [colvec [10%float]; colvec [7.5%float]; colvec [9%float]].

Lemma three_steps_ordinary :
  ordinary_scores
    (completed (snd (tuning_run 1 three_steps (fresh [] (colvec []))))).
Proof. vm_compute. repeat constructor. Defined.

Lemma C2_witness :
  ordinary_scores
    (completed (snd (tuning_run 1 three_steps (fresh [] (colvec []))))) /\
  tracks_earliest_min 1 cv_Evaluate cv_Model cv_moved_from
    (fresh [] (colvec [])) three_steps.
Proof.
  split; [exact three_steps_ordinary|].
  exact (C2_tracks_earliest_min 1 cv_Evaluate cv_Model cv_moved_from
           0 [] 0 (colvec []) three_steps three_steps_ordinary).
Defined.

(** The largest finite double, then infinity: the second score replaces
    the first, which was the minimum. *)
Lemma C2_counterexample :
  ~ tracks_earliest_min 1 cv_Evaluate cv_Model cv_moved_from
      (fresh [] (colvec []))
      [colvec [Double.max]; colvec [infinity]].
Proof.
  unfold tracks_earliest_min. cbv zeta.
  assert (E : tuning_run 1 [colvec [Double.max]; colvec [infinity]]
                (fresh [] (colvec [])) =
              ({| self := {| boundArgs := []; bestObjective := infinity;
                             bestModel := 2 |};
                  cv := 2; parameters := colvec [infinity] |},
               [EvParam 0 0; EvCV [AParam Double.max] (inr Double.max) 1;
                EvParam 0 0; EvCV [AParam infinity] (inr infinity) 2]))
    by (vm_compute; reflexivity).
  unfold tuning_run in E. rewrite E. simpl.
  intros H. destruct H as (h1 & h2 & Eh & H1 & H2); [discriminate|].
  pose proof (f_equal (map snd) Eh) as Em.
  destruct h1 as [|x [|y h1]]; simpl in Eh, Em.
  - discriminate.
  - pose proof (f_equal (hd (infinity, 0)) Eh) as Ex. simpl in Ex.
    inversion H1 as [|? ? Hx _]; subst.
    vm_compute in Hx. discriminate.
  - rewrite map_app in Em. destruct h1; discriminate.
Qed.

(** The store after one evaluation that scored the largest finite
    double. *)
Definition after_max : World BoundVal MLAlgorithm CVType :=
  final (Evaluate 1 (fresh [] (colvec [Double.max]))).

(** A second evaluation with the same score replaces the model. *)
Lemma C3_counterexample :
  ~ ties_keep_best 1 cv_Evaluate cv_Model cv_moved_from
      after_max Double.max.
Proof.
  unfold ties_keep_best. cbv zeta. intros H.
  destruct H as [_ H]; [vm_compute; reflexivity..|].
  vm_compute in H. discriminate.
Qed.

(** The store after one evaluation that scored 7.5. *)
Definition after_7_5 : World BoundVal MLAlgorithm CVType :=
  final (Evaluate 1 (fresh [] (colvec [7.5%float]))).

Lemma C3_witness :
  Double.eq (bestObjective (self after_7_5)) Double.max = false /\
  result (Evaluate 1 after_7_5) = inr 7.5%float /\
  Double.eq (bestObjective (self after_7_5)) 7.5 = true /\
  bestObjective (self (final (Evaluate 1 after_7_5))) =
    bestObjective (self after_7_5) /\
  bestModel (self (final (Evaluate 1 after_7_5))) =
    bestModel (self after_7_5).
Proof.
  split; [reflexivity|]. split; [reflexivity|]. split; [reflexivity|].
  exact (C3_ties_keep_best 1 cv_Evaluate cv_Model cv_moved_from
           after_7_5 7.5%float eq_refl eq_refl eq_refl).
Defined.

Lemma C4_witness :
  let w0 := fresh [] (colvec [infinity]) in
  result (Evaluate 1 w0) = inr infinity /\
  bestObjective (self (final (Evaluate 1 w0))) = infinity /\
  completed (events (Evaluate 1 w0)) =
    [(infinity, bestModel (self (final (Evaluate 1 w0))))].
Proof.
  split; [reflexivity|].
  exact (proj2 (C4_first_evaluation 1 cv_Evaluate cv_Model cv_moved_from
                  0 [] 0 (colvec [infinity])) infinity eq_refl).
Defined.

(** Without a parameter, the toy cross-validation throws. *)
Lemma C5_witness :
  let w := fresh [] (colvec []) in
  In (EvCV [] (inl tt) 1) (events (Evaluate 0 w)) /\
  result (Evaluate 0 w) = inl (CvFailure tt) /\
  cv_calls (events (Evaluate 0 w)) = [[]] /\
  bestObjective (self (final (Evaluate 0 w))) = bestObjective (self w) /\
  bestModel (self (final (Evaluate 0 w))) = bestModel (self w).
Proof.
  split; [left; reflexivity|].
  exact (C5_failure_propagates 0 cv_Evaluate cv_Model cv_moved_from
           (fresh [] (colvec [])) [] tt 1 (or_introl eq_refl)).
Defined.

(** The two scenarios of the specification, run. *)
Example scenario_interleaving :
  cv_calls (events (Evaluate 3 (fresh kernel_degree (colvec [0.5%float]))))
  = [[ABound 7; AParam 0.5%float; ABound 9]].
Proof. reflexivity. Qed.

Example scenario_best_of_three :
  let w := fst (tuning_run 1 three_steps (fresh [] (colvec []))) in
  bestObjective (self w) = 7.5%float /\ bestModel (self w) = 2.
Proof. split; reflexivity. Qed.

(** Two bound arguments in the wrong order: the second one is dropped
    and a second matrix entry is read in its place. *)
Definition swapped : list (BoundArg BoundVal) :=
  [mkBoundArg 1 7; mkBoundArg 0 9].

Lemma C7_counterexample :
  ~ invalid_is_caught 3 cv_Evaluate cv_Model cv_moved_from
      (fresh swapped (colvec [0.5%float; 0.25%float])).
Proof.
  unfold invalid_is_caught. intros H.
  assert (Hinv : ~ valid_bound_indices 3 swapped).
  { intros [Hs _]. simpl in Hs. inversion Hs as [|? ? _ Hf]; subst.
    inversion Hf as [|? ? Hlt _]; subst. inversion Hlt. }
  specialize (H Hinv). vm_compute in H. discriminate.
Qed.

(** The stored best score is the largest finite double because the
    previous evaluation scored it; the next one, whatever it scores,
    replaces it. *)
Lemma C9_witness :
  Double.eq (bestObjective (self after_max)) Double.max = true /\
  let w := {| self := self after_max; cv := cv after_max;
              parameters := colvec [infinity] |} in
  result (Evaluate 1 w) = inr infinity /\
  bestObjective (self (final (Evaluate 1 w))) = infinity /\
  completed (events (Evaluate 1 w)) =
    [(infinity, bestModel (self (final (Evaluate 1 w))))].
Proof.
  split; [reflexivity|]. split; [reflexivity|].
  exact (C9_sentinel_replaced 1 cv_Evaluate cv_Model cv_moved_from
           {| self := self after_max; cv := cv after_max;
              parameters := colvec [infinity] |}
           infinity eq_refl eq_refl).
Defined.

End Runs.

(* ================================================================== *)
(** ** The further properties at work *)

Module MoreRuns.

Import Toy.

(** The store after one evaluation that scored 7.5, with the next
    matrix in place. *)
Definition after_7_5_then (x : float) : World BoundVal MLAlgorithm CVType :=
  {| self := self Runs.after_7_5; cv := cv Runs.after_7_5;
     parameters := colvec [x] |}.

(** The store after one evaluation that scored NaN. *)
Definition after_nan : World BoundVal MLAlgorithm CVType :=
  final (Evaluate 1 (fresh [] (colvec [nan]))).

(** A worse score is returned all the same. *)
Lemma X1_witness :
  let w := after_7_5_then 9%float in
  In (EvCV [AParam 9%float] (inr 9%float) 2) (events (Evaluate 1 w)) /\
  result (Evaluate 1 w) = inr 9%float.
Proof.
  split; [right; left; reflexivity|].
  exact (X1_score_returned 1 cv_Evaluate cv_Model cv_moved_from
           (after_7_5_then 9%float) [AParam 9%float] 9%float 2
           (or_intror (or_introl eq_refl))).
Defined.

Lemma X2_witness :
  let w := after_7_5_then 9%float in
  Double.eq (bestObjective (self w)) Double.max = false /\
  result (Evaluate 1 w) = inr 9%float /\
  (Double.gt (bestObjective (self w)) 9 = true ->
     bestObjective (self (final (Evaluate 1 w))) = 9%float /\
     completed (events (Evaluate 1 w)) =
       [(9%float, bestModel (self (final (Evaluate 1 w))))]) /\
  (Double.gt (bestObjective (self w)) 9 = false ->
     self (final (Evaluate 1 w)) = self w) /\
  Double.gt (bestObjective (self (final (Evaluate 1 w))))
            (bestObjective (self w)) = false.
Proof.
  split; [reflexivity|]. split; [reflexivity|].
  exact (X2_replaced_on_improvement_only 1 cv_Evaluate cv_Model
           cv_moved_from (after_7_5_then 9%float) 9%float
           eq_refl eq_refl).
Defined.

(** After a NaN, scores 1 and 0 are not taken. *)
Lemma X3_witness :
  Double.isnan (bestObjective (self after_nan)) = true /\
  self (fst (tuning_run 1 [colvec [1%float]; colvec [0%float]] after_nan))
  = self after_nan.
Proof.
  split; [reflexivity|].
  exact (X3_nan_best_is_kept 1 cv_Evaluate cv_Model cv_moved_from
           [colvec [1%float]; colvec [0%float]] after_nan eq_refl).
Defined.

Lemma X4_witness :
  let w := after_7_5_then nan in
  Double.isnan nan = true /\
  Double.eq (bestObjective (self w)) Double.max = false /\
  result (Evaluate 1 w) = inr nan /\
  self (final (Evaluate 1 w)) = self w.
Proof.
  split; [reflexivity|]. split; [reflexivity|]. split; [reflexivity|].
  exact (X4_nan_score_ignored 1 cv_Evaluate cv_Model cv_moved_from
           (after_7_5_then nan) nan eq_refl eq_refl eq_refl).
Defined.

(** The same matrix, before and after a first evaluation. *)
Lemma X6_witness :
  let w1 := fresh Runs.kernel_degree (colvec [0.5%float]) in
  let w2 := final (Evaluate 3 w1) in
  boundArgs (self w1) = boundArgs (self w2) /\
  parameters w1 = parameters w2 /\
  cv_calls (events (Evaluate 3 w1)) = cv_calls (events (Evaluate 3 w2)) /\
  param_reads (events (Evaluate 3 w1)) =
  param_reads (events (Evaluate 3 w2)).
Proof.
  split; [reflexivity|]. split; [reflexivity|].
  exact (X6_assembly_ignores_tracker 3 cv_Evaluate cv_Model cv_moved_from
           (fresh Runs.kernel_degree (colvec [0.5%float]))
           (final (Evaluate 3 (fresh Runs.kernel_degree
                                 (colvec [0.5%float]))))
           eq_refl eq_refl).
Defined.

Lemma X7_witness :
  let w := fresh Runs.kernel_degree (colvec [0.5%float]) in
  valid_bound_indices 3 (boundArgs (self w)) /\
  exists args,
    cv_calls (events (Evaluate 3 w)) = [args] /\
    bounds_of args = map value (boundArgs (self w)) /\
    params_of args = [0.5%float].
Proof.
  split; [exact Runs.kernel_degree_valid|].
  exact (X7_sources_in_order 3 cv_Evaluate cv_Model cv_moved_from
           (fresh Runs.kernel_degree (colvec [0.5%float])) [0.5%float]
           Runs.kernel_degree_valid eq_refl eq_refl).
Defined.

(** Bound arguments in the wrong order: only the first one is used. *)
Lemma X8_witness :
  let w := fresh Runs.swapped (colvec [0.5%float; 0.25%float]) in
  let args := [AParam 0.5%float; ABound 7; AParam 0.25%float] in
  In args (cv_calls (events (Evaluate 3 w))) /\
  bounds_of args =
    map value (firstn (length (bounds_of args)) (boundArgs (self w))).
Proof.
  split; [left; reflexivity|].
  exact (X8_bound_values_in_tuple_order 3 cv_Evaluate cv_Model
           cv_moved_from
           (fresh Runs.swapped (colvec [0.5%float; 0.25%float]))
           [AParam 0.5%float; ABound 7; AParam 0.25%float]
           (or_introl eq_refl)).
Defined.

Lemma X9_witness :
  let w := after_7_5_then 9%float in
  result (Evaluate 1 w) = inr 9%float /\
  exists args,
    cv_calls (events (Evaluate 1 w)) = [args] /\
    cv (final (Evaluate 1 w)) =
      if Double.gt (bestObjective (self w)) 9
         || Double.eq (bestObjective (self w)) Double.max
      then cv_moved_from (snd (cv_Evaluate args (cv w)))
      else snd (cv_Evaluate args (cv w)).
Proof.
  split; [reflexivity|].
  exact (X9_model_moved_on_replacement_only 1 cv_Evaluate cv_Model
           cv_moved_from (after_7_5_then 9%float) 9%float eq_refl).
Defined.

End MoreRuns.
